(** * react-chat-app: the conversation store and the date grouping pass

    A shallow embedding of [src/hooks/useChat.js] (the conversation state
    manager: hydrate, persist, createConversation, sendMessage,
    clearConversation) and of [src/components/MessageList.jsx] (the day
    bucket key, the divider label and the grouping pass), with the
    properties of the specification stated over them.

    Conventions.
    - JS strings are [string]; [null]/[undefined] values are [None].
    - A JS object used as a dictionary is a [gmap string _]; only own
      properties are modelled.
    - [Date], [JSON] and [localStorage] belong to the platform: what the
      code reads from them is a Section variable or an explicit argument. *)

From Stdlib Require Import Ascii String ZArith.
From stdpp Require Import gmap strings list fin_maps pretty.

Set Warnings "-register-all".

Open Scope string_scope.
Open Scope nat_scope.
Open Scope list_scope.
Open Scope stdpp_scope.

(** ** Messages and conversations *)

Inductive Role := user | assistant.

(** [{ id, role, content, timestamp? }] *)
Record Message := {
  msg_id : string;
  role : Role;
  content : string;
  timestamp : option string
}.

(** [{ id, title }] *)
Record Conversation := {
  conv_id : string;
  title : string
}.

Global Instance Role_eq_dec : EqDecision Role.
Proof. solve_decision. Defined.
Global Instance Message_eq_dec : EqDecision Message.
Proof. solve_decision. Defined.
Global Instance Conversation_eq_dec : EqDecision Conversation.
Proof. solve_decision. Defined.

(** JS truthiness of a string and of a possibly missing string. *)
Definition truthyStr (s : string) : bool := negb (bool_decide (s = "")).

Definition truthy (v : option string) : bool :=
  match v with
  | Some s => truthyStr s
  | None => false
  end.

(** ** JS values, completions and the platform's storage *)

(** A JSON value, as [JSON.parse] returns it and [JSON.stringify] takes
    it.  Numbers are the integers (the only numbers the store holds are
    version numbers); an object keeps its members in source order. *)
Inductive JSON :=
  | JNull
  | JBool (b : bool)
  | JNum (z : Z)
  | JStr (s : string)
  | JArr (elems : list JSON)
  | JObj (members : list (string * JSON)).

Global Instance JSON_eq_dec : EqDecision JSON.
Proof.
  refine (fix go (a b : JSON) {struct a} : Decision (a = b) :=
    match a, b with
    | JNull, JNull => left eq_refl
    | JBool x, JBool y => cast_if (decide (x = y))
    | JNum x, JNum y => cast_if (decide (x = y))
    | JStr x, JStr y => cast_if (decide (x = y))
    | JArr xs, JArr ys =>
        cast_if ((fix elems (xs ys : list JSON) {struct xs}
                    : Decision (xs = ys) :=
                    match xs, ys with
                    | [], [] => left eq_refl
                    | x :: xs', y :: ys' =>
                        cast_if_and (go x y) (elems xs' ys')
                    | _, _ => right _
                    end) xs ys)
    | JObj xs, JObj ys =>
        cast_if ((fix members (xs ys : list (string * JSON)) {struct xs}
                    : Decision (xs = ys) :=
                    match xs, ys with
                    | [], [] => left eq_refl
                    | (k, x) :: xs', (k', y) :: ys' =>
                        cast_if_and3 (decide (k = k')) (go x y)
                                     (members xs' ys')
                    | _, _ => right _
                    end) xs ys)
    | _, _ => right _
    end); abstract congruence.
Defined.

(** The outcome of evaluating JS code: a value, or a thrown exception. *)
Inductive Completion (A : Type) :=
  | Normal (a : A)
  | Throw (e : string).
Arguments Normal {A} a.
Arguments Throw {A} e.

Global Instance Completion_ret : MRet Completion := λ A a, Normal a.
Global Instance Completion_bind : MBind Completion := λ A B f c,
  match c with
  | Normal a => f a
  | Throw e => Throw e
  end.

(** [try { body } catch (e) { handler(e) }] *)
Definition tryCatch {A} (body : Completion A) (handler : string -> Completion A)
  : Completion A :=
  match body with
  | Normal a => Normal a
  | Throw e => handler e
  end.

(** Truthiness of a JS value; [None] is [undefined]. *)
Definition truthyJ (v : option JSON) : bool :=
  match v with
  | None => false
  | Some JNull => false
  | Some (JBool b) => b
  | Some (JNum z) => negb (bool_decide (z = 0%Z))
  | Some (JStr s) => truthyStr s
  | Some (JArr _) => true
  | Some (JObj _) => true
  end.

(** Own property [k] of a parsed object: when a key is repeated in the
    source text the last member wins. *)
Fixpoint member (k : string) (ms : list (string * JSON)) : option JSON :=
  match ms with
  | [] => None
  | (k', v) :: rest =>
      match member k rest with
      | Some w => Some w
      | None => if bool_decide (k' = k) then Some v else None
      end
  end.

(** [v?.k]: [undefined] on [null], on a missing key and on a primitive. *)
Definition getOpt (v : JSON) (k : string) : option JSON :=
  match v with
  | JObj ms => member k ms
  | _ => None
  end.

(** [v.k]: reading a property of [null] throws a [TypeError]. *)
Definition getProp (v : JSON) (k : string) : Completion (option JSON) :=
  match v with
  | JNull => Throw "TypeError"
  | _ => Normal (getOpt v k)
  end.

(** [window.localStorage]: a dictionary whose accesses may throw; whether
    a given call succeeds is decided by the environment. *)
Abbreviation LocalStorage := (gmap string string).

Definition getItem (ok : bool) (ls : LocalStorage) (k : string)
  : Completion (option string) :=
  if ok then Normal (ls !! k) else Throw "SecurityError".

Definition setItem (ok : bool) (ls : LocalStorage) (k v : string)
  : Completion LocalStorage :=
  if ok then Normal (<[k := v]> ls) else Throw "QuotaExceededError".

(** How the typed collections appear as JS values. *)
Definition roleName (r : Role) : string :=
  match r with
  | user => "user"
  | assistant => "assistant"
  end.

Definition messageJSON (m : Message) : JSON :=
  JObj ([("id", JStr (msg_id m)); ("role", JStr (roleName (role m)));
         ("content", JStr (content m))]
        ++ match timestamp m with
           | Some t => [("timestamp", JStr t)]
           | None => []
           end).

Definition conversationJSON (c : Conversation) : JSON :=
  JObj [("id", JStr (conv_id c)); ("title", JStr (title c))].

Definition conversationsJSON (cs : list Conversation) : JSON :=
  JArr (conversationJSON <$> cs).

Definition conversationsByIdJSON (byId : gmap string (list Message)) : JSON :=
  JObj ((λ kv, (kv.1, JArr (messageJSON <$> kv.2))) <$> map_to_list byId).

(** ** chatService.js: the reply stub *)

Module ChatService.


End ChatService.

(** ** useChat.js: the store and its three callbacks *)

Module UseChat.

Record Store := {
  conversations : list Conversation;
  conversationsById : gmap string (list Message);
  isLoading : bool;
  error : option string
}.

(** The initial values passed to [useState]. *)
Definition seedConversations : list Conversation :=
  [ {| conv_id := "c1"; title := "First conversation" |};
    {| conv_id := "c2"; title := "Second conversation" |} ].

Definition seedConversationsById : gmap string (list Message) :=
  <["c2" := []]> (<["c1" := []]> ∅).

Definition seedStore : Store :=
  {| conversations := seedConversations;
     conversationsById := seedConversationsById;
     isLoading := false;
     error := None |}.

(** [conversationsById[id] || []], [conversationsById[id] ?? []].  The read
    is that of an own key; an id that names a member of [Object.prototype],
    such as "constructor", is not modelled. *)
Definition messagesOf (byId : gmap string (list Message)) (id : string)
  : list Message :=
  default [] (byId !! id).

(** [(activeConversationId && conversationsById[activeConversationId]) || []] *)
Definition activeMessages (activeConversationId : option string)
    (byId : gmap string (list Message)) : list Message :=
  if truthy activeConversationId
  then messagesOf byId (default "" activeConversationId)
  else [].

(** [createConversation()]: the id it returns and the store after the two
    updaters have run.  [now] is the value of [Date.now()]. *)
Definition createConversation (activeConversationId : option string) (now : Z)
    (st : Store) : string * Store :=
  if truthy activeConversationId
     && (length (activeMessages activeConversationId (conversationsById st)) =? 0)
  then (default "" activeConversationId, st)
  else
    match find (λ conv, length (messagesOf (conversationsById st) (conv_id conv)) =? 0)
               (conversations st) with
    | Some existingEmptyConversation => (conv_id existingEmptyConversation, st)
    | None =>
        let newId := "c-" +:+ pretty now in
        let newConversation := {| conv_id := newId; title := "New conversation" |} in
        (newId,
         {| conversations := conversations st ++ [newConversation];
            conversationsById := <[newId := []]> (conversationsById st);
            isLoading := isLoading st;
            error := error st |})
    end.

(** [String.prototype.trim] strips, at both ends, the white space and line
    terminator characters of ECMAScript.  A string holds UTF-8 text, in
    which such a character is one byte (U+0009 to U+000D, U+0020), two
    bytes (U+00A0) or three (U+1680, U+2000 to U+200A, U+2028, U+2029,
    U+202F, U+205F, U+3000, U+FEFF). *)
Definition isSpace (c : ascii) : bool :=
  let n := nat_of_ascii c in
  ((9 <=? n) && (n <=? 13)) || (n =? 32).

Definition isSpace2 (c1 c2 : ascii) : bool :=
  (nat_of_ascii c1 =? 194) && (nat_of_ascii c2 =? 160).

Definition isSpace3 (c1 c2 c3 : ascii) : bool :=
  let a := nat_of_ascii c1 in
  let b := nat_of_ascii c2 in
  let c := nat_of_ascii c3 in
  ((a =? 225) && (b =? 154) && (c =? 128))
  || ((a =? 226) && (b =? 128)
      && (((128 <=? c) && (c <=? 138)) || (c =? 168) || (c =? 169)
          || (c =? 175)))
  || ((a =? 226) && (b =? 129) && (c =? 159))
  || ((a =? 227) && (b =? 128) && (c =? 128))
  || ((a =? 239) && (b =? 187) && (c =? 191)).

Fixpoint trimStart (s : string) : string :=
  match s with
  | EmptyString => s
  | String c1 r1 =>
      if isSpace c1 then trimStart r1
      else
        match r1 with
        | EmptyString => s
        | String c2 r2 =>
            if isSpace2 c1 c2 then trimStart r2
            else
              match r2 with
              | EmptyString => s
              | String c3 r3 => if isSpace3 c1 c2 c3 then trimStart r3 else s
              end
        end
  end.

(** Whether a text is one such character. *)
Definition isWhite (s : string) : bool :=
  match s with
  | String c1 EmptyString => isSpace c1
  | String c1 (String c2 EmptyString) => isSpace2 c1 c2
  | String c1 (String c2 (String c3 EmptyString)) => isSpace3 c1 c2 c3
  | _ => false
  end.

Fixpoint trimEnd (s : string) : string :=
  match s with
  | EmptyString => EmptyString
  | String c r =>
      let kept := String c (trimEnd r) in
      if isWhite kept then EmptyString else kept
  end.

Definition trim (s : string) : string := trimEnd (trimStart s).

Definition ordinals : list string :=
  ["First"; "Second"; "Third"; "Fourth"; "Fifth";
   "Sixth"; "Seventh"; "Eighth"; "Ninth"; "Tenth"].

(** [`${ordinals[conversationCount] || `${conversationCount + 1}th`} conversation`] *)
Definition newTitle (conversationCount : nat) : string :=
  let ordinal :=
    if truthy (ordinals !! conversationCount)
    then default "" (ordinals !! conversationCount)
    else pretty (conversationCount + 1) +:+ "th" in
  ordinal +:+ " conversation".

(** The body of the [forEach] callback that counts the conversations in
    use. *)
Definition countStep (activeConversationId : string)
    (byId : gmap string (list Message)) (conversationCount : nat)
    (conv : Conversation) : nat :=
  if negb (bool_decide (conv_id conv = activeConversationId)) then
    if (0 <? length (messagesOf byId (conv_id conv)))
       || negb (bool_decide (title conv = "New conversation"))
    then S conversationCount
    else conversationCount
  else conversationCount.

(** The reply service's answer, as [await] sees it. *)
Inductive Reply :=
  | Resolved (assistantMessage : Message)
  | Rejected (err : string).

(** [!userText || !userText.trim() || !activeConversationId] *)
Definition sendRejected (activeConversationId : option string)
    (userText : string) : bool :=
  negb (truthyStr userText) || negb (truthyStr (trim userText))
  || negb (truthy activeConversationId).

Definition userMessage (userText : string) (now : Z) (iso : string) : Message :=
  {| msg_id := "user-" +:+ pretty now;
     role := user;
     content := trim userText;
     timestamp := Some iso |}.

(** The updater passed to [setConversations] when [isFirstMessage]. *)
Definition renameActive (activeConversationId : string) (conversationCount : nat)
    (prevConversations : list Conversation) : list Conversation :=
  match find (λ c, bool_decide (conv_id c = activeConversationId))
             prevConversations with
  | None => prevConversations
  | Some currentConversation =>
      if negb (bool_decide (title currentConversation = "New conversation"))
      then prevConversations
      else
        (λ conv,
           if bool_decide (conv_id conv = activeConversationId)
           then {| conv_id := conv_id conv; title := newTitle conversationCount |}
           else conv) <$> prevConversations
  end.

(** [sendMessage] up to the [await].  The callback is memoized on
    [[activeConversationId]] alone, so [conversations] and
    [conversationsById] in its body are the values of the render that
    created it ([seen]); the updaters receive the current store ([st]).
    [now] and [iso] are [Date.now()] and [new Date().toISOString()]. *)
Definition sendMessageBegin (activeConversationId : string) (seen : Store)
    (userText : string) (now : Z) (iso : string) (st : Store) : Store :=
  let previousMessagesForConversation :=
    messagesOf (conversationsById seen) activeConversationId in
  let isFirstMessage := length previousMessagesForConversation =? 0 in
  let conversationCount :=
    if isFirstMessage
    then fold_left (countStep activeConversationId (conversationsById seen))
                   (conversations seen) 0
    else 0 in
  let updatedMessagesForConversation :=
    messagesOf (conversationsById st) activeConversationId
    ++ [userMessage userText now iso] in
  {| conversations :=
       if isFirstMessage
       then renameActive activeConversationId conversationCount (conversations st)
       else conversations st;
     conversationsById :=
       <[activeConversationId := updatedMessagesForConversation]>
         (conversationsById st);
     isLoading := true;
     error := None |}.

(** [sendMessage] from the [await] on: [try]/[catch]/[finally].  [st] is
    the store when the promise settles, [iso] the time stamp taken then. *)
Definition sendMessageSettle (activeConversationId : string) (reply : Reply)
    (iso : string) (st : Store) : Store :=
  match reply with
  | Resolved assistantMessage =>
      let assistantMessageWithTimestamp :=
        {| msg_id := msg_id assistantMessage;
           role := role assistantMessage;
           content := content assistantMessage;
           timestamp := Some iso |} in
      {| conversations := conversations st;
         conversationsById :=
           <[activeConversationId :=
               messagesOf (conversationsById st) activeConversationId
               ++ [assistantMessageWithTimestamp]]> (conversationsById st);
         isLoading := false;
         error := error st |}
  | Rejected err =>
      {| conversations := conversations st;
         conversationsById := conversationsById st;
         isLoading := false;
         error := Some err |}
  end.

(** A whole [sendMessage] call during which nothing else touches the
    store. *)
Definition sendMessage (activeConversationId : option string) (seen : Store)
    (userText : string) (now : Z) (iso : string) (reply : Reply)
    (iso' : string) (st : Store) : Store :=
  if sendRejected activeConversationId userText then st
  else
    let a := default "" activeConversationId in
    sendMessageSettle a reply iso' (sendMessageBegin a seen userText now iso st).

(** [clearConversation(conversationId)] *)
Definition clearConversation (conversationId : option string) (st : Store)
  : Store :=
  if negb (truthy conversationId) then st
  else
    {| conversations := conversations st;
       conversationsById :=
         <[default "" conversationId := []]> (conversationsById st);
       isLoading := isLoading st;
       error := error st |}.

End UseChat.

(** ** useChat.js: the hydrate and persist effects

    Both effects treat the two collections as opaque JS values: hydrate
    tests them for truthiness and stores them, persist serializes them.
    They are therefore modelled over [JSON]; the [console] calls, which
    have no effect on the store, are left out. *)

Module Persistence.

Definition STORAGE_KEY : string := "chat-app:conversations".
Definition STORAGE_VERSION : Z := 1.

(** The state cells the two effects read and write. *)
Record Cells := {
  conversations : JSON;
  conversationsById : JSON;
  isHydrated : bool
}.

(** The initial values passed to [useState], as JS values. *)
Definition seedCells : Cells :=
  {| conversations := conversationsJSON UseChat.seedConversations;
     conversationsById := conversationsByIdJSON UseChat.seedConversationsById;
     isHydrated := false |}.

(** [{ version: STORAGE_VERSION, conversations, conversationsById }] *)
Definition snapshot (c b : JSON) : JSON :=
  JObj [("version", JNum STORAGE_VERSION);
        ("conversations", c);
        ("conversationsById", b)].

(** [parsed.version === STORAGE_VERSION] *)
Definition versionMatches (v : option JSON) : bool :=
  match v with
  | Some (JNum z) => bool_decide (z = STORAGE_VERSION)
  | _ => false
  end.

Section Effects.

(** [JSON.parse]; [None] when it throws a [SyntaxError]. *)
Variable JSON_parse : string -> option JSON.

(** [JSON.stringify] on a JSON value. *)
Variable JSON_stringify : JSON -> string.

Definition parse (raw : string) : Completion JSON :=
  match JSON_parse raw with
  | Some v => Normal v
  | None => Throw "SyntaxError"
  end.

(** The body of the [try] block of the hydrate effect. *)
Definition hydrateTry (readOk : bool) (ls : LocalStorage) (st : Cells)
  : Completion Cells :=
  raw ← getItem readOk ls STORAGE_KEY;
  if truthy raw then
    parsed ← parse (default "" raw);
    version ← getProp parsed "version";
    if versionMatches version then
      if truthyJ (getOpt parsed "conversations")
         && truthyJ (getOpt parsed "conversationsById")
      then
        mret {| conversations := default JNull (getOpt parsed "conversations");
                conversationsById :=
                  default JNull (getOpt parsed "conversationsById");
                isHydrated := isHydrated st |}
      else mret st
    else mret st
  else mret st.

(** The hydrate effect: the [try]/[catch] followed by
    [setIsHydrated(true)]. *)
Definition hydrate (readOk : bool) (ls : LocalStorage) (st : Cells)
  : Completion Cells :=
  st1 ← tryCatch (hydrateTry readOk ls st) (λ _, mret st);
  mret {| conversations := conversations st1;
          conversationsById := conversationsById st1;
          isHydrated := true |}.

(** The persist effect: the cells and the storage it leaves. *)
Definition persist (writeOk : bool) (st : Cells) (ls : LocalStorage)
  : Completion (Cells * LocalStorage) :=
  if negb (isHydrated st) then mret (st, ls)
  else
    tryCatch
      (let payload :=
         JSON_stringify (snapshot (conversations st) (conversationsById st)) in
       ls' ← setItem writeOk ls STORAGE_KEY payload;
       mret (st, ls'))
      (λ _, mret (st, ls)).

(** [useEffect(effect, [conversations, conversationsById, isHydrated])]:
    React runs the effect after the first render ([prev] is [None]) and
    after every render in which some dependency is not the very object of
    the previous render.  [identical] tells whether React finds all three
    identical; that can only be so when their values are equal. *)
Definition effectRuns (prev : option Cells) (identical : bool) (st : Cells)
  : bool :=
  match prev with
  | None => true
  | Some p =>
      negb (identical
            && bool_decide (conversations p = conversations st
                            ∧ conversationsById p = conversationsById st
                            ∧ isHydrated p = isHydrated st))
  end.

(** The persist effect as scheduled after a render. *)
Definition persistOnRender (prev : option Cells) (identical writeOk : bool)
    (st : Cells) (ls : LocalStorage) : Completion (Cells * LocalStorage) :=
  if effectRuns prev identical st then persist writeOk st ls
  else mret (st, ls).

(** The stored snapshot hydrate applies, if any: the read succeeds, the
    text is non-empty and parses, the version is the expected one and both
    collections are truthy. *)
Definition storedSnapshot (readOk : bool) (ls : LocalStorage)
  : option (JSON * JSON) :=
  if readOk then
    raw ← ls !! STORAGE_KEY;
    parsed ← (if truthyStr raw then JSON_parse raw else None);
    c ← getOpt parsed "conversations";
    b ← getOpt parsed "conversationsById";
    if versionMatches (getOpt parsed "version")
       && truthyJ (Some c) && truthyJ (Some b)
    then Some (c, b) else None
  else None.

End Effects.

(** The cells hydrate leaves, given the snapshot it applies. *)
Definition hydrated (snap : option (JSON * JSON)) (st : Cells) : Cells :=
  {| conversations := default (conversations st) (fst <$> snap);
     conversationsById := default (conversationsById st) (snd <$> snap);
     isHydrated := true |}.

(** The cells hold the two collections of a typed store. *)
Definition encodes (cells : Cells) (st : UseChat.Store) : Prop :=
  conversations cells = conversationsJSON (UseChat.conversations st)
  ∧ conversationsById cells
    = conversationsByIdJSON (UseChat.conversationsById st).

End Persistence.

(** ** MessageList.jsx: day bucket key, divider label, grouping *)

Module MessageList.

(** What the local getters of a valid [Date] return:
    [getFullYear()], [getMonth()] (0..11) and [getDate()] (1..31). *)
Record LocalDate := {
  getFullYear : Z;
  getMonth : nat;
  getDate : nat
}.

(** A JS number as [formatDateDivider] sees it after [split("-").map(Number)]
    and array destructuring. *)
Inductive jsnum := Num (z : Z) | NaN | Undefined.

(** How [formatDateDivider] places a calendar day against the clock. *)
Inductive DayRel := IsToday | IsYesterday | OtherDay.

(** Render items. *)
Inductive Item :=
  | divider (dateString label key : string)
  | message (m : Message) (key : string).

Global Instance Item_eq_dec : EqDecision Item.
Proof. solve_decision. Defined.

(** [String(n).padStart(2, "0")] *)
Definition padStart2 (s : string) : string :=
  match String.length s with
  | 0 => "00"
  | 1 => "0" +:+ s
  | _ => s
  end.

Definition isDigit (c : ascii) : bool :=
  let n := nat_of_ascii c in ((48 <=? n) && (n <=? 57))%nat.

Fixpoint digitsValue (acc : Z) (s : string) : option Z :=
  match s with
  | EmptyString => Some acc
  | String c r =>
      if isDigit c
      then digitsValue (10 * acc + Z.of_nat (nat_of_ascii c - 48)) r
      else None
  end.

(** [Number(s)] on the pieces of a bucket key: the empty string is 0, a
    run of decimal digits is its value, anything else is read as NaN.
    (Exact on every piece that [getDateString] can produce.) *)
Definition Number (s : string) : jsnum :=
  match digitsValue 0 s with
  | Some z => Num z
  | None => NaN
  end.

(** [s.split("-")] *)
Fixpoint splitDash (cur : string) (s : string) : list string :=
  match s with
  | EmptyString => [cur]
  | String c r =>
      if bool_decide (c = "-"%char)
      then cur :: splitDash "" r
      else splitDash (cur +:+ String c EmptyString) r
  end.

(** [`${x}`] for a number. *)
Definition showNum (x : jsnum) : string :=
  match x with
  | Num z => pretty z
  | NaN => "NaN"
  | Undefined => "undefined"
  end.

Definition monthNames : list string :=
  ["Jan"; "Feb"; "Mar"; "Apr"; "May"; "Jun";
   "Jul"; "Aug"; "Sep"; "Oct"; "Nov"; "Dec"].

(** [`${monthNames[month - 1]}`] *)
Definition monthName (month : jsnum) : string :=
  match month with
  | Num z =>
      if (1 <=? z)%Z
      then default "undefined" (monthNames !! Z.to_nat (z - 1))
      else "undefined"
  | _ => "undefined"
  end.

Section Grouping.

(** [new Date(timestamp)] read through the local getters; [None] when
    [isNaN(date.getTime())]. *)
Variable newDate : string -> option LocalDate.

(** The outcome of comparing [new Date(year, month - 1, day)] with today
    and yesterday, both normalized to local midnight. *)
Variable dayRel : jsnum -> jsnum -> jsnum -> DayRel.

Definition getDateString (ts : option string) : string :=
  match ts with
  | None => ""
  | Some t =>
      if truthyStr t then
        match newDate t with
        | None => ""
        | Some d =>
            let year := pretty (getFullYear d) in
            let month := padStart2 (pretty (getMonth d + 1)) in
            let day := padStart2 (pretty (getDate d)) in
            year +:+ "-" +:+ month +:+ "-" +:+ day
        end
      else ""
  end.

Definition formatDateDivider (dateString : string) : string :=
  if truthyStr dateString then
    let parts := Number <$> splitDash "" dateString in
    let year := default Undefined (parts !! 0) in
    let month := default Undefined (parts !! 1) in
    let day := default Undefined (parts !! 2) in
    match dayRel year month day with
    | IsToday => "Today"
    | IsYesterday => "Yesterday"
    | OtherDay =>
        monthName month +:+ " " +:+ showNum day +:+ ", " +:+ showNum year
    end
  else "".

(** [message.timestamp ? getDateString(message.timestamp) : null] *)
Definition currentDateString (m : Message) : option string :=
  if truthy (timestamp m) then Some (getDateString (timestamp m)) else None.

(** The loop state of [groupMessagesByDate]: [items],
    [previousDateString] and the [forEach] index. *)
Record Loop := {
  items : list Item;
  previousDateString : option string;
  index : nat
}.

(** One iteration of the [forEach] callback. *)
Definition groupStep (st : Loop) (m : Message) : Loop :=
  let cur := currentDateString m in
  let pushed :=
    if truthy cur && negb (bool_decide (cur = previousDateString st)) then
      let ds := default "" cur in
      let dividerLabel := formatDateDivider ds in
      if truthyStr dividerLabel
      then items st ++
           [divider ds dividerLabel
              ("divider-" +:+ ds +:+ "-" +:+ pretty (index st))]
      else items st
    else items st in
  {| items := pushed ++ [message m (msg_id m)];
     previousDateString := cur;
     index := S (index st) |}.

Definition groupMessagesByDate (messages : list Message) : list Item :=
  items (fold_left groupStep messages
           {| items := []; previousDateString := None; index := 0 |}).

(** *** Vocabulary of the properties *)

(** The bucket key the loop holds when it reaches position [i]: the key
    computed for the message just before, [None] at the start. *)
Definition keyBefore (msgs : list Message) (i : nat) : option string :=
  match i with
  | 0 => None
  | S j => msgs !! j ≫= currentDateString
  end.

(** A divider is due at a message when its key is truthy and differs
    from [prev]. *)
Definition dividerDue (prev : option string) (m : Message) : bool :=
  truthy (currentDateString m)
  && negb (bool_decide (currentDateString m = prev)).

(** What the pass emits for the message at position [i]. *)
Definition emitted (prev : option string) (i : nat) (m : Message)
  : list Item :=
  (if dividerDue prev m then
     let ds := default "" (currentDateString m) in
     [divider ds (formatDateDivider ds)
        ("divider-" +:+ ds +:+ "-" +:+ pretty i)]
   else [])
  ++ [message m (msg_id m)].

Definition rendered (msgs : list Message) : list Item :=
  mjoin (imap (λ i m, emitted (keyBefore msgs i) i m) msgs).

Definition itemMessage (it : Item) : option Message :=
  match it with
  | message m _ => Some m
  | divider _ _ _ => None
  end.

(** The pass as the specification words it: the previous key is left
    unchanged by a message without a time stamp. *)
Definition groupStepSpec (st : Loop) (m : Message) : Loop :=
  let st' := groupStep st m in
  {| items := items st';
     previousDateString :=
       match currentDateString m with
       | Some k => Some k
       | None => previousDateString st
       end;
     index := index st' |}.

Definition groupMessagesBySpec (messages : list Message) : list Item :=
  items (fold_left groupStepSpec messages
           {| items := []; previousDateString := None; index := 0 |}).

End Grouping.

End MessageList.

(** ** The store: vocabulary of the properties *)

Module StoreSpec.
Import UseChat.

(** The conversations of the metadata list whose message sequence is
    empty (a missing entry reads as empty, as in the code). *)
Definition emptyConversations (st : Store) : list Conversation :=
  filter (λ conv, messagesOf (conversationsById st) (conv_id conv) = [])
         (conversations st).

(** The ids of the metadata list. *)
Definition ids (st : Store) : list string := conv_id <$> conversations st.

(** The title of the conversation [id], as [find] reads it. *)
Definition titleOf (id : string) (st : Store) : option string :=
  title <$> find (λ c, bool_decide (conv_id c = id)) (conversations st).

(** The metadata list and the message map have the same keys. *)
Definition keysMatch (st : Store) : Prop :=
  ∀ id : string, id ∈ ids st ↔ is_Some (conversationsById st !! id).

(** The stores after each of a run of [createConversation()] calls, each
    made with some active id at some clock reading. *)
Fixpoint createTrace (st : Store) (calls : list (option string * Z))
  : list Store :=
  match calls with
  | [] => [st]
  | (active, now) :: rest =>
      st :: createTrace (createConversation active now st).2 rest
  end.

(** The ids those calls return, in order. *)
Fixpoint createReturns (st : Store) (calls : list (option string * Z))
  : list string :=
  match calls with
  | [] => []
  | (active, now) :: rest =>
      (createConversation active now st).1
      :: createReturns (createConversation active now st).2 rest
  end.

(** The operations of the hook as steps on the store.  A [sendMessage]
    call is two steps, since other operations may run while the reply is
    awaited. *)
Inductive Op :=
  | Create (active : option string) (now : Z)
  | Send (active : option string) (seen : Store) (userText : string)
         (now : Z) (iso : string)
  | Settle (active : string) (reply : Reply) (iso : string)
  | Clear (conversationId : option string).

Definition step (op : Op) (st : Store) : Store :=
  match op with
  | Create active now => (createConversation active now st).2
  | Send active seen userText now iso =>
      if sendRejected active userText then st
      else sendMessageBegin (default "" active) seen userText now iso st
  | Settle active reply iso => sendMessageSettle active reply iso st
  | Clear conversationId => clearConversation conversationId st
  end.

Definition run (ops : list Op) (st : Store) : Store :=
  fold_left (λ s op, step op s) ops st.

(** How often the title of an existing conversation [id] changes along a
    run. *)
Fixpoint renames (id : string) (st : Store) (ops : list Op) : nat :=
  match ops with
  | [] => 0
  | op :: rest =>
      (if bool_decide (is_Some (titleOf id st)
                       ∧ titleOf id (step op st) ≠ titleOf id st)
       then 1 else 0)
      + renames id (step op st) rest
  end.

(** The conversations other than [active] that are in use: a non-empty
    message sequence or a title that is not the placeholder. *)
Definition inUseOthers (active : string) (st : Store) : list Conversation :=
  filter (λ conv, conv_id conv ≠ active
                  ∧ (messagesOf (conversationsById st) (conv_id conv) ≠ []
                     ∨ title conv ≠ "New conversation"))
         (conversations st).

(** The ordinal table with its numeric fallback. *)
Definition ordinalName (n : nat) : string :=
  match n with
  | 0 => "First" | 1 => "Second" | 2 => "Third" | 3 => "Fourth"
  | 4 => "Fifth" | 5 => "Sixth" | 6 => "Seventh" | 7 => "Eighth"
  | 8 => "Ninth" | 9 => "Tenth"
  | _ => pretty (n + 1) +:+ "th"
  end.

(** Whether a title begins with the letter N. *)
Definition startsWithN (s : string) : bool :=
  match s with
  | String "N" _ => true
  | _ => false
  end.

End StoreSpec.

(** ** Sample inputs *)

(** A sample platform: date-time strings of the form [YYYY-MM-DDThh:mm:ss]
    are local times, and the clock stands at 19 January 2025. *)
Module SamplePlatform.
Import MessageList.

Definition newDate (t : string) : option LocalDate :=
  if bool_decide (String.length t = 19 ∧ substring 4 1 t = "-"
                  ∧ substring 7 1 t = "-" ∧ substring 10 1 t = "T") then
    match digitsValue 0 (substring 0 4 t), digitsValue 0 (substring 5 2 t),
          digitsValue 0 (substring 8 2 t) with
    | Some y, Some m, Some d =>
        Some {| getFullYear := y;
                getMonth := Z.to_nat m - 1;
                getDate := Z.to_nat d |}
    | _, _, _ => None
    end
  else None.

Definition dayRel (year month day : jsnum) : DayRel :=
  match year, month, day with
  | Num 2025, Num 1, Num 19 => IsToday
  | Num 2025, Num 1, Num 18 => IsYesterday
  | _, _, _ => OtherDay
  end.

Definition msg (i : string) (r : Role) (ts : option string) : Message :=
  {| msg_id := i; role := r; content := "hi"; timestamp := ts |}.

(** Two messages of 18 January with an undated message between them. *)
Definition undatedBetween : list Message :=
  [ msg "m1" user (Some "2025-01-18T10:00:00");
    msg "m2" assistant None;
    msg "m3" user (Some "2025-01-18T11:00:00") ].

End SamplePlatform.

(** A sample [JSON]: compact text as [JSON.stringify] prints it, read back
    by a recursive descent parser. *)
Module SampleJSON.

Definition dquote : ascii := "034"%char.

Fixpoint escape (s : string) : string :=
  match s with
  | EmptyString => EmptyString
  | String c r =>
      if bool_decide (c = dquote ∨ c = "\"%char)
      then String "\" (String c (escape r))
      else String c (escape r)
  end.

Definition quote (s : string) : string :=
  String dquote (escape s +:+ String dquote EmptyString).

Fixpoint stringify (v : JSON) : string :=
  match v with
  | JNull => "null"
  | JBool true => "true"
  | JBool false => "false"
  | JNum z => pretty z
  | JStr s => quote s
  | JArr l =>
      "[" +:+ (fix elems (l : list JSON) : string :=
                 match l with
                 | [] => ""
                 | x :: r =>
                     stringify x
                     +:+ match r with [] => "" | _ => "," +:+ elems r end
                 end) l +:+ "]"
  | JObj ms =>
      "{" +:+ (fix members (ms : list (string * JSON)) : string :=
                 match ms with
                 | [] => ""
                 | (k, x) :: r =>
                     quote k +:+ ":" +:+ stringify x
                     +:+ match r with [] => "" | _ => "," +:+ members r end
                 end) ms +:+ "}"
  end.

(** Reads a string body up to its closing quote. *)
Fixpoint readString (s : string) : option (string * string) :=
  match s with
  | EmptyString => None
  | String c r =>
      if bool_decide (c = dquote) then Some (EmptyString, r)
      else if bool_decide (c = "\"%char) then
        match r with
        | String c' r' =>
            '(body, rest) ← readString r'; Some (String c' body, rest)
        | EmptyString => None
        end
      else '(body, rest) ← readString r; Some (String c body, rest)
  end.

Fixpoint readDigits (s : string) : string * string :=
  match s with
  | String c r =>
      if MessageList.isDigit c
      then let '(ds, rest) := readDigits r in (String c ds, rest)
      else (EmptyString, s)
  | EmptyString => (EmptyString, EmptyString)
  end.

Definition readNumber (s : string) : option (JSON * string) :=
  let '(neg, s1) :=
    match s with
    | String "-" r => (true, r)
    | _ => (false, s)
    end in
  let '(ds, rest) := readDigits s1 in
  if truthyStr ds then
    z ← MessageList.digitsValue 0 ds;
    Some (JNum (if neg then - z else z)%Z, rest)
  else None.

Definition stripPrefix (p s : string) : option string :=
  if String.prefix p s
  then Some (substring (String.length p) (String.length s - String.length p) s)
  else None.

Inductive Goal := GValue | GElems | GMembers.

(** [GElems] and [GMembers] read the rest of an array or object after its
    opening bracket, up to and including the closing one. *)
Fixpoint parseJ (fuel : nat) (g : Goal) (s : string) : option (JSON * string) :=
  match fuel with
  | 0 => None
  | S fuel' =>
      match g with
      | GValue =>
          match s with
          | String "n" _ => r ← stripPrefix "null" s; Some (JNull, r)
          | String "t" _ => r ← stripPrefix "true" s; Some (JBool true, r)
          | String "f" _ => r ← stripPrefix "false" s; Some (JBool false, r)
          | String "[" (String "]" r) => Some (JArr [], r)
          | String "[" r => parseJ fuel' GElems r
          | String "{" (String "}" r) => Some (JObj [], r)
          | String "{" r => parseJ fuel' GMembers r
          | String c r =>
              if bool_decide (c = dquote)
              then '(str, rest) ← readString r; Some (JStr str, rest)
              else readNumber s
          | EmptyString => None
          end
      | GElems =>
          '(v, rest) ← parseJ fuel' GValue s;
          match rest with
          | String "]" r => Some (JArr [v], r)
          | String "," r =>
              '(more, r') ← parseJ fuel' GElems r;
              match more with
              | JArr l => Some (JArr (v :: l), r')
              | _ => None
              end
          | _ => None
          end
      | GMembers =>
          match s with
          | String c r =>
              if bool_decide (c = dquote) then
                '(k, rest) ← readString r;
                match rest with
                | String ":" r1 =>
                    '(v, rest') ← parseJ fuel' GValue r1;
                    match rest' with
                    | String "}" r2 => Some (JObj [(k, v)], r2)
                    | String "," r2 =>
                        '(more, r3) ← parseJ fuel' GMembers r2;
                        match more with
                        | JObj ms => Some (JObj ((k, v) :: ms), r3)
                        | _ => None
                        end
                    | _ => None
                    end
                | _ => None
                end
              else None
          | EmptyString => None
          end
      end
  end.

Definition parse (s : string) : option JSON :=
  match parseJ (S (String.length s)) GValue s with
  | Some (v, EmptyString) => Some v
  | _ => None
  end.

End SampleJSON.

(** A store whose only conversation was created at clock reading
    1734517800000 and holds one message. *)
Definition usedStore : UseChat.Store :=
  {| UseChat.conversations :=
       [{| conv_id := "c-1734517800000"; title := "First conversation" |}];
     UseChat.conversationsById :=
       {[ "c-1734517800000" :=
            [UseChat.userMessage "hello" 1734517801000 "2024-12-18T10:30:01.000Z"] ]};
     UseChat.isLoading := false;
     UseChat.error := None |}.

(** The seed store after [createConversation] has added a conversation at
    clock reading 1734517800000 (both seed conversations hold a message). *)
Definition threeConversations : UseChat.Store :=
  {| UseChat.conversations :=
       UseChat.seedConversations
       ++ [{| conv_id := "c-1734517800000"; title := "New conversation" |}];
     UseChat.conversationsById :=
       <["c-1734517800000" := []]>
         (<["c2" := [UseChat.userMessage "hey" 1734517750000
                       "2024-12-18T10:29:10.000Z"]]>
            (<["c1" := [UseChat.userMessage "hi" 1734517700000
                          "2024-12-18T10:28:20.000Z"]]> ∅));
     UseChat.isLoading := false;
     UseChat.error := None |}.


(** The cells that hold the collections of [threeConversations], once
    hydrated. *)
Definition sampleCells : Persistence.Cells :=
  {| Persistence.conversations :=
       conversationsJSON (UseChat.conversations threeConversations);
     Persistence.conversationsById :=
       conversationsByIdJSON (UseChat.conversationsById threeConversations);
     Persistence.isHydrated := true |}.

(** ** MessageList.jsx: the clock time of a message and the empty state *)

Module Timestamps.

(** What [getHours()] and [getMinutes()] return for a valid [Date]. *)
Record LocalTime := {
  getHours : nat;
  getMinutes : nat
}.

(** [`${displayHours}:${displayMinutes} ${ampm}`] *)
Definition clockText (hours minutes : nat) : string :=
  let ampm := if 12 <=? hours then "PM" else "AM" in
  let displayHours := if hours mod 12 =? 0 then 12 else hours mod 12 in
  let displayMinutes := MessageList.padStart2 (pretty minutes) in
  pretty displayHours +:+ ":" +:+ displayMinutes +:+ " " +:+ ampm.

Section Format.

(** [new Date(timestamp)] read through [getHours] and [getMinutes];
    [None] when [isNaN(date.getTime())]. *)
Variable newDate : string -> option LocalTime.

Definition formatTimestamp (ts : option string) : string :=
  match ts with
  | None => ""
  | Some t =>
      if truthyStr t then
        match newDate t with
        | None => ""
        | Some date => clockText (getHours date) (getMinutes date)
        end
      else ""
  end.

(** The time shown under a bubble, if any:
    [message.timestamp ? formatTimestamp(message.timestamp) : ""], rendered
    only when truthy. *)
Definition shownTime (m : Message) : option string :=
  let formattedTime :=
    if truthy (timestamp m) then formatTimestamp (timestamp m) else "" in
  if truthyStr formattedTime then Some formattedTime else None.

End Format.

(** [messages.length === 0 && !isLoading] *)
Definition showEmptyState (messages : list Message) (isLoading : bool) : bool :=
  (length messages =? 0) && negb isLoading.

End Timestamps.

(** ** MessageInput.jsx: what the composer sends *)

Module MessageInput.

(** The fields of a keyboard event that [handleKeyDown] reads. *)
Record KeyboardEvent := {
  shiftKey : bool;
  key : string
}.

(** What a handler did: the text it passed to [onSend], if it called it,
    the text state it leaves, and whether it called [preventDefault]. *)
Record Handled := {
  sent : option string;
  text : string;
  defaultPrevented : bool
}.

Definition handleSubmit (disabled : bool) (text : string) : Handled :=
  if negb (truthyStr (UseChat.trim text)) || disabled
  then {| sent := None; text := text; defaultPrevented := true |}
  else {| sent := Some (UseChat.trim text); text := "";
          defaultPrevented := true |}.

Definition handleKeyDown (event : KeyboardEvent) (disabled : bool)
    (text : string) : Handled :=
  if shiftKey event && bool_decide (key event = "Enter")
  then {| sent := None; text := text; defaultPrevented := false |}
  else if bool_decide (key event = "Enter") && negb (shiftKey event) then
    if truthyStr (UseChat.trim text) && negb disabled
    then {| sent := Some (UseChat.trim text); text := "";
            defaultPrevented := true |}
    else {| sent := None; text := text; defaultPrevented := true |}
  else {| sent := None; text := text; defaultPrevented := false |}.

(** The [disabled] attribute of the Send button. *)
Definition sendDisabled (disabled : bool) (text : string) : bool :=
  disabled || negb (truthyStr (UseChat.trim text)).

End MessageInput.

(** ** App.jsx: the selected conversation *)

Module App.

Definition ACTIVE_ID_STORAGE_KEY : string := "chat-app:activeConversationId".

(** [window.localStorage.removeItem], which may throw like the other
    accesses. *)
Definition removeItem (ok : bool) (ls : LocalStorage) (k : string)
  : Completion LocalStorage :=
  if ok then Normal (delete k ls) else Throw "SecurityError".

(** The restore effect: the id it passes to [setSelectedConversationId],
    if it calls it. *)
Definition restoreEffect (readOk : bool) (ls : LocalStorage)
    (conversations : list Conversation) : option string :=
  match
    tryCatch
      (storedId ← getItem readOk ls ACTIVE_ID_STORAGE_KEY;
       if negb (truthy storedId) then mret None
       else
         if existsb (λ c, bool_decide (conv_id c = default "" storedId))
                    conversations
         then mret storedId
         else mret None)
      (λ _, mret None)
  with
  | Normal call => call
  | Throw _ => None
  end.

(** The effect that picks the first conversation when none is selected. *)
Definition defaultEffect (selectedConversationId : option string)
    (conversations : list Conversation) : option string :=
  if negb (truthy selectedConversationId) && (0 <? length conversations)
  then conv_id <$> head conversations
  else None.

(** The effect that stores the selected id. *)
Definition persistActiveEffect (writeOk : bool)
    (selectedConversationId : option string) (ls : LocalStorage)
  : LocalStorage :=
  match
    tryCatch
      (if negb (truthy selectedConversationId)
       then removeItem writeOk ls ACTIVE_ID_STORAGE_KEY
       else setItem writeOk ls ACTIVE_ID_STORAGE_KEY
              (default "" selectedConversationId))
      (λ _, mret ls)
  with
  | Normal ls' => ls'
  | Throw _ => ls
  end.

(** The selected id after a commit whose effects made the given
    [setSelectedConversationId] calls, in order: the last call wins. *)
Definition afterCalls (selectedConversationId : option string)
    (calls : list (option string)) : option string :=
  fold_left (λ sel call, match call with Some id => Some id | None => sel end)
            calls selectedConversationId.

(** The effects of the first commit.  They run in the order of their
    declaration and all see the values of the first render: nothing
    selected and the seed list. *)
Definition firstCommit (readOk writeOk : bool) (ls : LocalStorage)
  : option string * LocalStorage :=
  let selectedConversationId : option string := None in
  let conversations := UseChat.seedConversations in
  (afterCalls selectedConversationId
     [restoreEffect readOk ls conversations;
      defaultEffect selectedConversationId conversations],
   persistActiveEffect writeOk selectedConversationId ls).

(** The effects of a commit after the first.  An effect runs when one of
    its dependencies is not the value of the previous render: the restore
    effect depends on [conversations.length], the default selection on
    [conversations] and [selectedConversationId], the persist effect on
    [selectedConversationId].  [sameList] tells whether [conversations] is
    the very array of the previous render, which it can only be when the
    values are equal.  The effects see the values of the render; the
    restore effect reads the storage before the persist effect writes. *)
Definition laterCommit (readOk writeOk : bool)
    (prevSelected : option string) (prevConversations : list Conversation)
    (sameList : bool) (selectedConversationId : option string)
    (conversations : list Conversation) (ls : LocalStorage)
  : option string * LocalStorage :=
  let selectedSame := bool_decide (prevSelected = selectedConversationId) in
  let listSame :=
    sameList && bool_decide (prevConversations = conversations) in
  let restoreCall :=
    if length prevConversations =? length conversations then None
    else restoreEffect readOk ls conversations in
  let defaultCall :=
    if listSame && selectedSame then None
    else defaultEffect selectedConversationId conversations in
  (afterCalls selectedConversationId [restoreCall; defaultCall],
   if selectedSame then ls
   else persistActiveEffect writeOk selectedConversationId ls).

(** [handleNewConversation]: the id selected and the store after it. *)
Definition handleNewConversation (selectedConversationId : option string)
    (now : Z) (st : UseChat.Store) : option string * UseChat.Store :=
  let '(newId, st') :=
    UseChat.createConversation selectedConversationId now st in
  (Some newId, st').

(** The [onClearChat] prop passed to the chat window. *)
Definition onClearChat (selectedConversationId : option string)
  : option (UseChat.Store → UseChat.Store) :=
  if truthy selectedConversationId
  then Some (UseChat.clearConversation selectedConversationId)
  else None.

End App.

(** ** ChatWindow.jsx *)

Module ChatWindow.

(** [onClearChat && messages.length > 0] *)
Definition showClearButton {A} (onClearChat : option A)
    (messages : list Message) : bool :=
  match onClearChat with
  | Some _ => 0 <? length messages
  | None => false
  end.

End ChatWindow.

(** ** Vocabulary of the further properties *)

Module MoreSpec.
Import MessageList.

(** Every divider is directly followed by a message of its day. *)
Fixpoint dividersLeadTheirDay (key : Message → option string)
    (l : list Item) : Prop :=
  match l with
  | [] => True
  | message _ _ :: rest => dividersLeadTheirDay key rest
  | divider ds _ _ :: rest =>
      match rest with
      | message m _ :: rest' =>
          key m = Some ds ∧ dividersLeadTheirDay key rest'
      | _ => False
      end
  end.

(** The React keys of the dividers of a render list. *)
Definition dividerKeys (l : list Item) : list string :=
  omap (λ it, match it with
              | divider _ _ k => Some k
              | message _ _ => None
              end) l.

Fixpoint dashFree (s : string) : bool :=
  match s with
  | EmptyString => true
  | String c r => negb (bool_decide (c = "-"%char)) && dashFree r
  end.

Fixpoint allDigits (s : string) : bool :=
  match s with
  | EmptyString => true
  | String c r => isDigit c && allDigits r
  end.

(** Whether a text begins with a character that [trim] strips. *)
Definition startsWhite (s : string) : bool :=
  match s with
  | EmptyString => false
  | String c1 r1 =>
      UseChat.isSpace c1
      || match r1 with
         | EmptyString => false
         | String c2 r2 =>
             UseChat.isSpace2 c1 c2
             || match r2 with
                | EmptyString => false
                | String c3 _ => UseChat.isSpace3 c1 c2 c3
                end
         end
  end.

(** The minutes of a day, as pairs of hours and minutes. *)
Definition minutesOfDay : list (nat * nat) :=
  h ← seq 0 24; (λ m, (h, m)) <$> seq 0 60.

(** The conversation an operation writes to, if any. *)
Definition target (op : StoreSpec.Op) : option string :=
  match op with
  | StoreSpec.Create _ now => Some ("c-" +:+ pretty now)
  | StoreSpec.Send active _ _ _ _ => active
  | StoreSpec.Settle active _ _ => Some active
  | StoreSpec.Clear conversationId => conversationId
  end.

(** The two steps of a [sendMessage] call. *)
Definition isExchange (op : StoreSpec.Op) : bool :=
  match op with
  | StoreSpec.Send _ _ _ _ _ | StoreSpec.Settle _ _ _ => true
  | _ => false
  end.

End MoreSpec.

(** Further sample inputs. *)
Module SampleMore.

(** The clock time of a date-time string [YYYY-MM-DDThh:mm:ss], which is
    a local time. *)
Definition newTime (t : string) : option Timestamps.LocalTime :=
  if bool_decide (String.length t = 19 ∧ substring 10 1 t = "T"
                  ∧ substring 13 1 t = ":") then
    match MessageList.digitsValue 0 (substring 11 2 t),
          MessageList.digitsValue 0 (substring 14 2 t) with
    | Some h, Some m =>
        Some {| Timestamps.getHours := Z.to_nat h;
                Timestamps.getMinutes := Z.to_nat m |}
    | _, _ => None
    end
  else None.

(** A platform on which every time stamp is 15 March of the year -43. *)
Definition idesOfMarch (t : string) : option MessageList.LocalDate :=
  Some {| MessageList.getFullYear := -43;
          MessageList.getMonth := 2;
          MessageList.getDate := 15 |}.

(** Three messages of 18 January 2025. *)
Definition oneDay : list Message :=
  [ SamplePlatform.msg "m1" user (Some "2025-01-18T08:15:00");
    SamplePlatform.msg "m2" assistant (Some "2025-01-18T08:15:01");
    SamplePlatform.msg "m3" user (Some "2025-01-18T23:59:59") ].

End SampleMore.

(** * Properties *)

(** ** The grouping pass *)

Section GroupingProperties.
Import MessageList.

Variable newDate : string -> option LocalDate.
Variable dayRel : jsnum -> jsnum -> jsnum -> DayRel.

Local Abbreviation currentDateString := (MessageList.currentDateString newDate).
Local Abbreviation formatDateDivider := (MessageList.formatDateDivider dayRel).
Local Abbreviation groupStep := (MessageList.groupStep newDate dayRel).
Local Abbreviation groupMessagesByDate :=
  (MessageList.groupMessagesByDate newDate dayRel).
Local Abbreviation keyBefore := (MessageList.keyBefore newDate).
Local Abbreviation dividerDue := (MessageList.dividerDue newDate).
Local Abbreviation emitted := (MessageList.emitted newDate dayRel).
Local Abbreviation rendered := (MessageList.rendered newDate dayRel).

Lemma append_nonempty_r (a b : string) : b ≠ "" → a +:+ b ≠ "".
Proof. destruct a; simpl; [done | discriminate]. Qed.

Lemma truthyStr_true (s : string) : truthyStr s = true ↔ s ≠ "".
Proof.
  unfold truthyStr. rewrite negb_true_iff, bool_decide_eq_false. done.
Qed.

(** The label of a non-empty bucket key is never empty, so the inner
    [if (dividerLabel)] never suppresses a divider. *)
Lemma formatDateDivider_truthy (ds : string) :
  truthyStr ds = true → truthyStr (formatDateDivider ds) = true.
Proof.
  intros H. unfold MessageList.formatDateDivider. rewrite H.
  destruct (dayRel _ _ _); try done.
  apply truthyStr_true, append_nonempty_r. discriminate.
Qed.

Lemma groupStep_emitted (st : Loop) (m : Message) :
  items (groupStep st m)
  = items st ++ emitted (previousDateString st) (index st) m.
Proof.
  unfold MessageList.groupStep, emitted, dividerDue; simpl.
  destruct (truthy (currentDateString m)
            && negb (bool_decide (currentDateString m = previousDateString st)))
    eqn:E; simpl.
  - apply andb_true_iff in E as [Ht _].
    destruct (currentDateString m) as [k|] eqn:Ek; [|done]. simpl in *.
    rewrite (formatDateDivider_truthy k Ht). by rewrite <- app_assoc.
  - done.
Qed.

Lemma keyBefore_app_l (l r : list Message) (i : nat) :
  i ≤ length l → keyBefore (l ++ r) i = keyBefore l i.
Proof.
  destruct i as [|j]; [done|]. intros Hj. simpl.
  by rewrite lookup_app_l by lia.
Qed.

Lemma rendered_snoc (l : list Message) (m : Message) :
  rendered (l ++ [m])
  = rendered l ++ emitted (keyBefore l (length l)) (length l) m.
Proof.
  unfold rendered. rewrite imap_app, join_app. f_equal.
  - f_equal. apply imap_ext. intros i x Hix. simpl.
    rewrite keyBefore_app_l; [done|].
    apply lookup_lt_Some in Hix. lia.
  - simpl. rewrite Nat.add_0_r, app_nil_r.
    by rewrite keyBefore_app_l by lia.
Qed.

Lemma keyBefore_snoc (l : list Message) (m : Message) :
  keyBefore (l ++ [m]) (S (length l)) = currentDateString m.
Proof. simpl. by rewrite list_lookup_middle. Qed.

(** The loop invariant of [groupMessagesByDate]. *)
Lemma group_loop (l : list Message) :
  fold_left groupStep l
    {| items := []; previousDateString := None; index := 0 |}
  = {| items := rendered l;
       previousDateString := keyBefore l (length l);
       index := length l |}.
Proof.
  induction l as [|m l IH] using rev_ind; [done|].
  rewrite fold_left_app, IH. simpl fold_left.
  pose proof (groupStep_emitted
    {| items := rendered l; previousDateString := keyBefore l (length l);
       index := length l |} m) as Hit.
  simpl in Hit.
  rewrite rendered_snoc, length_app, Nat.add_1_r, keyBefore_snoc, <- Hit.
  done.
Qed.

Lemma itemMessage_emitted prev i m :
  omap itemMessage (emitted prev i m) = [m].
Proof. unfold emitted. by destruct (dividerDue prev m). Qed.

Lemma itemMessage_join (f : nat → Message → list Item) (l : list Message) :
  (∀ i m, omap itemMessage (f i m) = [m]) →
  omap itemMessage (mjoin (imap f l)) = l.
Proof.
  revert f. induction l as [|m l IH]; intros f Hf; [done|].
  simpl. rewrite omap_app, Hf. simpl. f_equal. apply IH.
  intros i x. apply Hf.
Qed.

(** C1 (as amended).  For every message sequence, the pass emits, for
    each message in input order, a divider immediately before it exactly
    when its bucket key is truthy and differs from the key computed for
    the immediately preceding message ([None] for the first message and
    after a message without a time stamp), and then the message item
    itself.  A message without a time stamp never gets a divider, and it
    resets the previous key: the key it leaves for the next message is
    [None]. *)
Theorem group_dividers_against_preceding_message (msgs : list Message) :
  groupMessagesByDate msgs = rendered msgs
  ∧ omap itemMessage (groupMessagesByDate msgs) = msgs
  ∧ (∀ prev i m,
       msgs !! i = Some m → truthy (timestamp m) = false →
       dividerDue prev m = false ∧ keyBefore msgs (S i) = None).
Proof.
  assert (Hg : groupMessagesByDate msgs = rendered msgs).
  { unfold MessageList.groupMessagesByDate. by rewrite group_loop. }
  split; [done|]. split.
  - rewrite Hg. apply itemMessage_join. intros i m.
    apply itemMessage_emitted.
  - intros prev i m Hi Hts.
    assert (Hc : currentDateString m = None).
    { unfold MessageList.currentDateString. by rewrite Hts. }
    split.
    + unfold dividerDue. by rewrite Hc.
    + simpl. by rewrite Hi.
Qed.

End GroupingProperties.

(** C1, the claim as it stands, fails: with an undated message between two
    messages of the same day, the code emits a second divider for that
    day, where a pass that left the previous key unchanged would not. *)
Lemma group_undated_resets_previous_key :
  MessageList.groupMessagesByDate SamplePlatform.newDate SamplePlatform.dayRel
    SamplePlatform.undatedBetween
  ≠ MessageList.groupMessagesBySpec SamplePlatform.newDate SamplePlatform.dayRel
      SamplePlatform.undatedBetween.
Proof. vm_compute. discriminate. Qed.

(** ** createConversation *)

Section CreateConversation.
Import UseChat StoreSpec.

Lemma find_none_forall {A} (p : A → bool) (l : list A) :
  find p l = None ↔ ∀ x, x ∈ l → p x = false.
Proof.
  induction l as [|a l IH]; simpl.
  - split; [intros _ x Hx; by apply elem_of_nil in Hx | done].
  - destruct (p a) eqn:Ea.
    + split; [done|]. intros H. specialize (H a (list_elem_of_here _ _)).
      congruence.
    + rewrite IH. split.
      * intros H x [->|Hx]%elem_of_cons; auto.
      * intros H x Hx. apply H. by apply list_elem_of_further.
Qed.

Lemma find_some_elem {A} (p : A → bool) (l : list A) (x : A) :
  find p l = Some x → x ∈ l ∧ p x = true.
Proof.
  intros H. apply find_some in H as [Hin Hp]. split; [|done].
  by apply list_elem_of_In.
Qed.

Lemma length_zero_eqb {A} (l : list A) : (length l =? 0) = true ↔ l = [].
Proof. rewrite Nat.eqb_eq. by destruct l. Qed.

(** With an empty conversation in the list no call changes the store. *)
Lemma createConversation_keeps_store (active : option string) (now : Z)
    (st : Store) :
  emptyConversations st ≠ [] → (createConversation active now st).2 = st.
Proof.
  intros Hne. unfold createConversation.
  destruct (truthy active && _); [done|].
  destruct (find _ _) eqn:Ef; [done|]. exfalso. apply Hne.
  unfold emptyConversations.
  rewrite find_none_forall in Ef.
  induction (conversations st) as [|c l IH]; [done|].
  rewrite filter_cons.
  pose proof (Ef c (list_elem_of_here _ _)) as Hc. simpl in Hc.
  case_decide as Hd.
  - apply length_zero_eqb in Hd. congruence.
  - apply IH. intros x Hx. apply Ef. by apply list_elem_of_further.
Qed.

Lemma createTrace_keeps_store (calls : list (option string * Z)) (st : Store) :
  emptyConversations st ≠ [] → Forall (λ st', st' = st) (createTrace st calls).
Proof.
  intros Hne. induction calls as [|[active now] rest IH]; simpl.
  - by constructor.
  - constructor; [done|].
    by rewrite createConversation_keeps_store.
Qed.

Lemma createConversation_first_case (active : option string) (st : Store) :
  truthy active && (length (activeMessages active (conversationsById st)) =? 0)
  = true
  ↔ truthy active = true ∧ activeMessages active (conversationsById st) = [].
Proof. by rewrite andb_true_iff, length_zero_eqb. Qed.

Lemma createReturns_keeps_store (calls : list (option string * Z))
    (st : Store) :
  emptyConversations st ≠ [] →
  createReturns st calls
  = (λ call, (createConversation call.1 call.2 st).1) <$> calls.
Proof.
  intros Hne. induction calls as [|[active now] rest IH]; simpl; [done|].
  by rewrite createConversation_keeps_store, IH.
Qed.

(** C2 (as amended).  Starting from the seed state, no run of
    [createConversation()] calls changes the store: the seed already holds
    two conversations with an empty message sequence, [c1] and [c2], and
    every call returns without adding one, so there are exactly two at any
    time.  A call returns the active id when one is set and shows no
    message, and [c1], the first empty conversation, otherwise; the id
    returned is thus one of the list unless it is a set active id that
    names no conversation of the list. *)
Theorem createConversation_runs_keep_seed (calls : list (option string * Z)) :
  Forall (λ st, st = seedStore
                ∧ conv_id <$> emptyConversations st = ["c1"; "c2"])
         (createTrace seedStore calls)
  ∧ Forall2 (λ call id,
               let activeEmpty :=
                 truthy call.1 = true
                 ∧ activeMessages call.1 (conversationsById seedStore) = [] in
               (activeEmpty → id = default "" call.1)
               ∧ (¬ activeEmpty → id = "c1")
               ∧ (id ∈ ids seedStore
                  ∨ (call.1 = Some id ∧ id ≠ "" ∧ id ∉ ids seedStore)))
            calls (createReturns seedStore calls).
Proof.
  assert (Hne : emptyConversations seedStore ≠ []) by (by vm_compute).
  split.
  - eapply Forall_impl.
    + by apply createTrace_keeps_store.
    + intros st ->. split; [done|]. by vm_compute.
  - rewrite createReturns_keeps_store by done.
    apply Forall2_fmap_r, Forall_Forall2_diag, Forall_forall.
    intros [active now] _. simpl.
    assert (Hids : ids seedStore = ["c1"; "c2"]) by done.
    unfold createConversation.
    destruct (truthy active
              && (length (activeMessages active (conversationsById seedStore))
                  =? 0)) eqn:E.
    + apply createConversation_first_case in E as [Ht Hm]. simpl.
      split; [done|]. split; [by intros []|].
      destruct active as [a|]; [|done]. simpl in *.
      destruct (decide (a ∈ ids seedStore)); [by left|].
      right. split; [done|]. split; [|done]. by apply truthyStr_true.
    + assert (Hn : ¬ (truthy active = true
                      ∧ activeMessages active (conversationsById seedStore)
                        = [])).
      { intros H. apply createConversation_first_case in H. congruence. }
      simpl. split; [done|]. split; [done|]. left. rewrite Hids.
      apply list_elem_of_here.
Qed.

Lemma find_head_filter (l : list Conversation) (p : Conversation → bool)
    (P : Conversation → Prop) `{∀ c, Decision (P c)} :
  (∀ c, p c = true ↔ P c) → find p l = head (filter P l).
Proof.
  intros Hp. induction l as [|c l IH]; [done|].
  simpl. rewrite filter_cons. destruct (p c) eqn:Ec.
  - apply Hp in Ec. by rewrite decide_True.
  - rewrite decide_False; [done|]. rewrite <- Hp. congruence.
Qed.

Lemma find_empty_conversation (st : Store) :
  find (λ conv, length (messagesOf (conversationsById st) (conv_id conv)) =? 0)
       (conversations st)
  = head (emptyConversations st).
Proof. apply find_head_filter. intros c. apply length_zero_eqb. Qed.

(** C4 (as amended).  [createConversation()] returns the active id, and
    leaves the store alone, when an active id is set and the active
    message sequence is empty; otherwise, when some conversation of the
    list has no messages, it returns the id of the first such conversation
    and leaves the store alone; otherwise it appends a conversation with
    the placeholder title and the id ["c-"] followed by the clock reading,
    sets that id's message sequence to empty and returns the id.  The id
    is not checked against the ids in use: it differs from the id made at
    any other clock reading. *)
Theorem createConversation_cases (active : option string) (now : Z)
    (st : Store) :
  let activeEmpty :=
    truthy active = true ∧ activeMessages active (conversationsById st) = [] in
  (activeEmpty → createConversation active now st = (default "" active, st))
  ∧ (¬ activeEmpty → emptyConversations st ≠ [] →
     ∃ c, head (emptyConversations st) = Some c
          ∧ createConversation active now st = (conv_id c, st))
  ∧ (¬ activeEmpty → emptyConversations st = [] →
     createConversation active now st
     = ("c-" +:+ pretty now,
        {| conversations :=
             conversations st
             ++ [{| conv_id := "c-" +:+ pretty now;
                    title := "New conversation" |}];
           conversationsById :=
             <["c-" +:+ pretty now := []]> (conversationsById st);
           isLoading := isLoading st;
           error := error st |})
     ∧ ∀ now', now' ≠ now →
         (createConversation active now' st).1
         ≠ (createConversation active now st).1).
Proof.
  intros activeEmpty. unfold createConversation.
  rewrite find_empty_conversation.
  destruct (truthy active && _) eqn:E.
  - apply createConversation_first_case in E. by repeat split.
  - assert (¬ activeEmpty) as Hn.
    { intros H. apply createConversation_first_case in H. congruence. }
    split; [done|]. split.
    + intros _ Hne. destruct (emptyConversations st) as [|c l]; [done|].
      by exists c.
    + intros _ ->. simpl. split; [done|].
      intros now' Hne [=Heq].
      change (pretty now' = pretty now) in Heq.
      by apply (inj pretty) in Heq.
Qed.

End CreateConversation.

(** C2, the claim as it stands, fails already in the seed state and after
    any call: two conversations have an empty message sequence. *)
Lemma seed_has_two_empty_conversations :
  ¬ Forall (λ st, length (StoreSpec.emptyConversations st) ≤ 1)
      (StoreSpec.createTrace UseChat.seedStore [(Some "c1", 1734517800000%Z)]).
Proof.
  intros H. apply Forall_cons in H as [H _].
  vm_compute in H. lia.
Qed.

(** C4, the claim as it stands, fails: when the clock reads a value that
    already names a conversation, the third case returns an id that is in
    use, and the list then holds it twice. *)
Lemma createConversation_id_not_fresh :
  let r := UseChat.createConversation (Some "c-1734517800000")
             1734517800000 usedStore in
  StoreSpec.emptyConversations usedStore = []
  ∧ r.1 ∈ StoreSpec.ids usedStore
  ∧ ¬ NoDup (StoreSpec.ids r.2).
Proof.
  vm_compute. split; [done|]. split.
  - apply list_elem_of_here.
  - intros H. apply NoDup_cons in H as [H _]. apply H, list_elem_of_here.
Qed.

(** ** sendMessage: titles *)

Section Titles.
Import UseChat StoreSpec.

Lemma pretty_N_go_no_N (x : N) (s : string) :
  s ≠ "" → startsWithN s = false →
  pretty_N_go x s ≠ "" ∧ startsWithN (pretty_N_go x s) = false.
Proof.
  revert s. pose proof (N.lt_wf_0 x) as Hacc.
  induction Hacc as [x _ IH]. intros s Hs Hn.
  destruct (decide (x = 0%N)) as [->|Hx].
  - by rewrite pretty_N_go_0.
  - rewrite pretty_N_go_step by lia. apply IH.
    + apply N.div_lt; lia.
    + done.
    + unfold pretty_N_char. by repeat case_match.
Qed.

Lemma pretty_nat_no_N (n : nat) :
  pretty n ≠ "" ∧ startsWithN (pretty n) = false.
Proof.
  unfold pretty, pretty_nat, pretty, pretty_N. case_decide as H0; [done|].
  rewrite pretty_N_go_step by lia. apply pretty_N_go_no_N; [done|].
  unfold pretty_N_char. by repeat case_match.
Qed.

Lemma newTitle_ordinalName (n : nat) :
  newTitle n = ordinalName n +:+ " conversation".
Proof. do 10 (destruct n as [|n]; [done|]). done. Qed.

(** An ordinal title is never the placeholder. *)
Lemma newTitle_not_placeholder (n : nat) : newTitle n ≠ "New conversation".
Proof.
  rewrite newTitle_ordinalName.
  do 10 (destruct n as [|n]; [done|]).
  unfold ordinalName.
  destruct (pretty_nat_no_N (S (S (S (S (S (S (S (S (S (S n))))))))) + 1))
    as [Hne Hn].
  destruct (pretty _) as [|c r]; [done|].
  intros Heq. simpl in Heq. injection Heq as -> _. done.
Qed.

Lemma find_app_snoc {A} (p : A → bool) (l : list A) (x : A) :
  find p (l ++ [x])
  = match find p l with
    | Some y => Some y
    | None => if p x then Some x else None
    end.
Proof. induction l as [|a l IH]; simpl; [done|]. by destruct (p a). Qed.

Lemma find_fmap_id (f : Conversation → Conversation) (id : string)
    (l : list Conversation) :
  (∀ c, conv_id (f c) = conv_id c) →
  find (λ c, bool_decide (conv_id c = id)) (f <$> l)
  = f <$> find (λ c, bool_decide (conv_id c = id)) l.
Proof.
  intros Hf. induction l as [|c l IH]; [done|].
  simpl. rewrite Hf. by case_bool_decide.
Qed.

Lemma find_id_Some (id : string) (l : list Conversation) (c : Conversation) :
  find (λ c, bool_decide (conv_id c = id)) l = Some c → conv_id c = id.
Proof.
  intros H. apply find_some_elem in H as [_ H]. by apply bool_decide_eq_true in H.
Qed.

(** The title of [id] after the rename updater has run for [active]. *)
Lemma titleOf_renameActive (id active : string) (n : nat)
    (l : list Conversation) (st st' : Store) :
  conversations st = l → conversations st' = renameActive active n l →
  titleOf id st'
  = if bool_decide (id = active ∧ titleOf id st = Some "New conversation")
    then Some (newTitle n) else titleOf id st.
Proof.
  intros Hl Hl'. unfold titleOf. rewrite Hl, Hl'. unfold renameActive.
  destruct (find (λ c, bool_decide (conv_id c = active)) l) as [cur|] eqn:Ecur.
  - destruct (decide (title cur = "New conversation")) as [Hp|Hp].
    + rewrite bool_decide_true by done. simpl.
      rewrite find_fmap_id by (intros c; by case_bool_decide).
      destruct (decide (id = active)) as [->|Hne].
      * rewrite Ecur. simpl. pose proof (find_id_Some _ _ _ Ecur) as Hc.
        rewrite Hp. rewrite !bool_decide_true by done. done.
      * rewrite bool_decide_false by (by intros [? _]).
        destruct (find (λ c, bool_decide (conv_id c = id)) l) as [c|] eqn:Ec;
          [|done].
        simpl. apply find_id_Some in Ec.
        by rewrite bool_decide_false by congruence.
    + rewrite bool_decide_false by done. simpl.
      case_bool_decide as Hd; [|done]. destruct Hd as [-> Hd].
      rewrite Ecur in Hd. simpl in Hd. congruence.
  - case_bool_decide as Hd; [|done]. destruct Hd as [-> Hd].
    by rewrite Ecur in Hd.
Qed.

Lemma fold_countStep (active : string) (byId : gmap string (list Message))
    (l : list Conversation) (n : nat) :
  fold_left (countStep active byId) l n
  = n + length (filter (λ conv, conv_id conv ≠ active
                                ∧ (messagesOf byId (conv_id conv) ≠ []
                                   ∨ title conv ≠ "New conversation")) l).
Proof.
  revert n. induction l as [|c l IH]; intros n; simpl; [lia|].
  rewrite IH, filter_cons. unfold countStep.
  destruct (decide (conv_id c = active)) as [Ha|Ha].
  - rewrite bool_decide_true by done. simpl.
    rewrite decide_False by (by intros [? _]). done.
  - rewrite bool_decide_false by done. simpl.
    destruct (messagesOf byId (conv_id c)) as [|m ms] eqn:Em; simpl.
    + destruct (decide (title c = "New conversation")) as [Ht|Ht].
      * rewrite bool_decide_true by done. simpl.
        rewrite decide_False by (by intros [_ [?|?]]). done.
      * rewrite bool_decide_false by done. simpl.
        rewrite decide_True by naive_solver. simpl. lia.
    + rewrite decide_True by naive_solver. simpl. lia.
Qed.

(** The count the callback takes is the number of other conversations in
    use in the store it sees. *)
Lemma conversationCount_inUseOthers (active : string) (seen : Store) :
  fold_left (countStep active (conversationsById seen)) (conversations seen) 0
  = length (inUseOthers active seen).
Proof. by rewrite fold_countStep. Qed.

(** The title of [id] after [sendMessage] has run up to the [await]. *)
Lemma titleOf_sendMessageBegin (id active : string) (seen : Store)
    (userText : string) (now : Z) (iso : string) (st : Store) :
  titleOf id (sendMessageBegin active seen userText now iso st)
  = if bool_decide (id = active
                    ∧ messagesOf (conversationsById seen) active = []
                    ∧ titleOf id st = Some "New conversation")
    then Some (newTitle (length (inUseOthers active seen)))
    else titleOf id st.
Proof.
  destruct (length (messagesOf (conversationsById seen) active) =? 0) eqn:E.
  - rewrite (titleOf_renameActive id active
               (length (inUseOthers active seen)) (conversations st) st).
    + apply length_zero_eqb in E.
      repeat case_bool_decide; try done; exfalso; tauto.
    + done.
    + unfold sendMessageBegin. simpl. rewrite E.
      by rewrite conversationCount_inUseOthers.
  - rewrite bool_decide_false.
    + unfold titleOf, sendMessageBegin. simpl. by rewrite E.
    + intros (_ & H & _). apply length_zero_eqb in H. congruence.
Qed.

Lemma titleOf_createConversation (id : string) (active : option string)
    (now : Z) (st : Store) :
  titleOf id (createConversation active now st).2 = titleOf id st
  ∨ (titleOf id st = None
     ∧ titleOf id (createConversation active now st).2
       = Some "New conversation").
Proof.
  unfold createConversation.
  destruct (truthy active && _); [by left|].
  destruct (find _ (conversations st)); [by left|].
  unfold titleOf. simpl. rewrite find_app_snoc.
  destruct (find (λ c, bool_decide (conv_id c = id)) (conversations st));
    [by left|].
  simpl. case_bool_decide; [by right | by left].
Qed.

Lemma titleOf_same_conversations (id : string) (st st' : Store) :
  conversations st' = conversations st → titleOf id st' = titleOf id st.
Proof. unfold titleOf. by intros ->. Qed.

(** What one step can do to the title of [id]. *)
Lemma titleOf_step (id : string) (op : Op) (st : Store) :
  titleOf id (step op st) = titleOf id st
  ∨ (titleOf id st = None
     ∧ titleOf id (step op st) = Some "New conversation"
     ∧ ∃ active now, op = Create active now)
  ∨ (titleOf id st = Some "New conversation"
     ∧ ∃ active seen userText now iso,
         op = Send active seen userText now iso
         ∧ sendRejected active userText = false
         ∧ active = Some id
         ∧ messagesOf (conversationsById seen) id = []
         ∧ titleOf id (step op st)
           = Some (newTitle (length (inUseOthers id seen)))).
Proof.
  destruct op as [active now|active seen userText now iso|active reply iso|cid];
    simpl.
  - destruct (titleOf_createConversation id active now st) as [H|[H1 H2]];
      [by left|]. right; left. eauto.
  - destruct (sendRejected active userText) eqn:Erej; [by left|].
    rewrite titleOf_sendMessageBegin.
    case_bool_decide as Hd; [|by left]. destruct Hd as (-> & Hseen & Ht).
    right; right. split; [done|].
    exists active, seen, userText, now, iso. repeat split; try done.
    unfold sendRejected in Erej.
    apply orb_false_iff in Erej as [_ Erej]. apply negb_false_iff in Erej.
    by destruct active.
  - left. apply titleOf_same_conversations. by destruct reply.
  - left. apply titleOf_same_conversations. unfold clearConversation.
    by destruct (negb (truthy cid)).
Qed.

Lemma titleOf_step_named (id t : string) (op : Op) (st : Store) :
  titleOf id st = Some t → t ≠ "New conversation" →
  titleOf id (step op st) = Some t.
Proof.
  intros Ht Hne.
  destruct (titleOf_step id op st) as [H|[(H & _)|(H & _)]]; congruence.
Qed.

Lemma titleOf_run_named (id t : string) (ops : list Op) (st : Store) :
  titleOf id st = Some t → t ≠ "New conversation" →
  titleOf id (run ops st) = Some t.
Proof.
  revert st. induction ops as [|op ops IH]; intros st Ht Hne; [done|].
  simpl. apply IH; [|done]. by apply titleOf_step_named.
Qed.

Lemma renames_named (id t : string) (ops : list Op) (st : Store) :
  titleOf id st = Some t → t ≠ "New conversation" → renames id st ops = 0.
Proof.
  revert st. induction ops as [|op ops IH]; intros st Ht Hne; [done|].
  simpl. pose proof (titleOf_step_named id t op st Ht Hne) as Hs.
  rewrite (IH _ Hs Hne), bool_decide_false; [done|].
  intros [_ H]. congruence.
Qed.

Lemma renames_at_most_once (id : string) (ops : list Op) (st : Store) :
  renames id st ops ≤ 1.
Proof.
  revert st. induction ops as [|op ops IH]; intros st; simpl; [lia|].
  destruct (titleOf_step id op st)
    as [H|[(H & _)|(H & a & seen & u & now & iso & _ & _ & _ & _ & H')]].
  - rewrite bool_decide_false by (by intros [_ ?]). apply IH.
  - rewrite bool_decide_false; [apply IH|].
    rewrite H. by intros [[? [=]] _].
  - rewrite (renames_named id _ ops _ H' (newTitle_not_placeholder _)).
    case_bool_decide; lia.
Qed.

(** C5 (as amended).  A conversation that [createConversation] adds
    starts with the placeholder title, while the two seed conversations
    start as "First conversation" and "Second conversation".  Along any run
    of operations the title of a conversation changes at most once; a
    step changes it only from the placeholder, only in a [sendMessage]
    call made in that conversation whose callback sees no message in it,
    and only to an ordinal name; and a title that is not the placeholder
    is never changed by [createConversation], [sendMessage] or
    [clearConversation]. *)
Theorem title_written_at_most_once (id : string) (st : Store)
    (ops : list Op) :
  title <$> conversations seedStore
  = ["First conversation"; "Second conversation"]
  ∧ (∀ active now,
       let r := createConversation active now st in
       conversations r.2 = conversations st
       ∨ conversations r.2
         = conversations st
           ++ [{| conv_id := r.1; title := "New conversation" |}])
  ∧ renames id st ops ≤ 1
  ∧ (∀ op, is_Some (titleOf id st) →
       titleOf id (step op st) ≠ titleOf id st →
       titleOf id st = Some "New conversation"
       ∧ ∃ seen userText now iso n,
           op = Send (Some id) seen userText now iso
           ∧ messagesOf (conversationsById seen) id = []
           ∧ titleOf id (step op st)
             = Some (ordinalName n +:+ " conversation"))
  ∧ (∀ t, titleOf id st = Some t → t ≠ "New conversation" →
       titleOf id (run ops st) = Some t).
Proof.
  split; [done|]. split; [|split; [|split]].
  - intros active now. unfold createConversation.
    destruct (truthy active && _); [by left|].
    destruct (find _ _); [by left | by right].
  - apply renames_at_most_once.
  - intros op [t Ht] Hch.
    destruct (titleOf_step id op st)
      as [H|[(H & _)|(H & a & seen & u & now & iso & -> & _ & -> & Hs & H')]].
    + done.
    + congruence.
    + split; [done|].
      exists seen, u, now, iso, (length (inUseOthers id seen)).
      by rewrite <- newTitle_ordinalName.
  - intros t. apply titleOf_run_named.
Qed.


End Titles.

(** C5, the claim as it stands, fails for the seed conversations: their
    titles are ordinal names from the start, not the placeholder. *)
Lemma seed_titles_are_not_placeholder :
  StoreSpec.titleOf "c1" UseChat.seedStore ≠ Some "New conversation"
  ∧ StoreSpec.titleOf "c2" UseChat.seedStore ≠ Some "New conversation".
Proof. by vm_compute. Qed.



(** ** sendMessage: the exchange with the reply service *)

Section Exchange.
Import UseChat StoreSpec.

Lemma messagesOf_insert (byId : gmap string (list Message)) (id : string)
    (ms : list Message) :
  messagesOf (<[id := ms]> byId) id = ms.
Proof. unfold messagesOf. by rewrite lookup_insert_eq. Qed.

(** C8.  If the reply service rejects, then after [sendMessage] the error
    state holds the rejection, [isLoading] is false, and the active
    conversation's sequence is the one before the call followed by the
    user message alone: settling a rejection appends nothing.  If it
    resolves, the reply follows the user message.  [isLoading] is false
    after either outcome. *)
Theorem rejected_reply_sets_error (active : string) (seen : Store)
    (userText : string) (now : Z) (iso err iso' : string) (st : Store) :
  sendRejected (Some active) userText = false →
  let sent reply :=
    sendMessage (Some active) seen userText now iso reply iso' st in
  let before := messagesOf (conversationsById st) active in
  error (sent (Rejected err)) = Some err
  ∧ isLoading (sent (Rejected err)) = false
  ∧ messagesOf (conversationsById (sent (Rejected err))) active
    = before ++ [userMessage userText now iso]
  ∧ role (userMessage userText now iso) = user
  ∧ (∀ s, conversationsById (sendMessageSettle active (Rejected err) iso' s)
          = conversationsById s)
  ∧ (∀ m, messagesOf (conversationsById (sent (Resolved m))) active
          = before
            ++ [userMessage userText now iso;
                {| msg_id := msg_id m; role := role m; content := content m;
                   timestamp := Some iso' |}])
  ∧ (∀ reply, isLoading (sent reply) = false).
Proof.
  intros Hrej. simpl. unfold sendMessage. rewrite Hrej. simpl.
  repeat split.
  - by rewrite messagesOf_insert.
  - intros m. by rewrite !messagesOf_insert, <- app_assoc.
  - intros reply. by destruct reply.
Qed.

End Exchange.

Lemma rejected_reply_sets_error_witness :
  let sent reply :=
    UseChat.sendMessage (Some "c1") UseChat.seedStore "hello" 1734517805000
      "2024-12-18T10:30:05.000Z" reply "2024-12-18T10:30:05.700Z"
      UseChat.seedStore in
  let st' := sent (UseChat.Rejected "network down") in
  UseChat.sendRejected (Some "c1") "hello" = false
  ∧ UseChat.error st' = Some "network down"
  ∧ UseChat.isLoading st' = false
  ∧ UseChat.messagesOf (UseChat.conversationsById st') "c1"
    = [UseChat.userMessage "hello" 1734517805000 "2024-12-18T10:30:05.000Z"]
  ∧ ∀ reply, UseChat.isLoading (sent reply) = false.
Proof.
  split; [by vm_compute|].
  pose proof (rejected_reply_sets_error "c1" UseChat.seedStore "hello"
    1734517805000 "2024-12-18T10:30:05.000Z" "network down"
    "2024-12-18T10:30:05.700Z" UseChat.seedStore eq_refl)
    as (He & Hl & Hm & _ & _ & _ & Hall).
  split; [exact He|]. split; [exact Hl|]. split; [exact Hm | exact Hall].
Defined.

(** ** The key sets of the two collections *)

Section KeySets.
Import UseChat StoreSpec.

Lemma keysMatch_insert_listed (st st' : Store) (id : string)
    (ms : list Message) :
  keysMatch st → id ∈ ids st → ids st' = ids st →
  conversationsById st' = <[id := ms]> (conversationsById st) →
  keysMatch st'.
Proof.
  intros Hk Hid Hids Hby k.
  rewrite Hids, Hby, lookup_insert_is_Some, (Hk k).
  split.
  - intros Hs. destruct (decide (id = k)); [by left | by right].
  - intros [<-|[_ Hs]]; [by apply Hk | done].
Qed.

Lemma ids_renameActive (active : string) (n : nat) (l : list Conversation) :
  conv_id <$> renameActive active n l = conv_id <$> l.
Proof.
  unfold renameActive. destruct (find _ l); [|done].
  destruct (negb _); [done|].
  rewrite <- list_fmap_compose. apply list_fmap_ext.
  intros i conv _. simpl. by case_bool_decide.
Qed.

Lemma ids_sendMessageBegin (active : string) (seen : Store)
    (userText : string) (now : Z) (iso : string) (st : Store) :
  ids (sendMessageBegin active seen userText now iso st) = ids st.
Proof.
  unfold ids, sendMessageBegin. simpl.
  destruct (length _ =? 0); [apply ids_renameActive | done].
Qed.

Lemma keysMatch_createConversation (active : option string) (now : Z)
    (st : Store) :
  keysMatch st → keysMatch (createConversation active now st).2.
Proof.
  intros Hk. unfold createConversation.
  destruct (truthy active && _); [done|]. destruct (find _ _); [done|].
  intros k. unfold ids. simpl.
  rewrite fmap_app, elem_of_app, lookup_insert_is_Some. simpl.
  rewrite list_elem_of_singleton. specialize (Hk k). unfold ids in Hk.
  rewrite Hk. split.
  - intros [Hs| ->]; [|by left].
    destruct (decide ("c-" +:+ pretty now = k)); [by left | by right].
  - intros [<-|[_ Hs]]; [by right | by left].
Qed.

Lemma keysMatch_sendMessageBegin (active : string) (seen : Store)
    (userText : string) (now : Z) (iso : string) (st : Store) :
  keysMatch st → active ∈ ids st →
  keysMatch (sendMessageBegin active seen userText now iso st).
Proof.
  intros Hk Hin. eapply keysMatch_insert_listed; [done | done | |done].
  apply ids_sendMessageBegin.
Qed.

Lemma keysMatch_sendMessageSettle (active : string) (reply : Reply)
    (iso : string) (st : Store) :
  keysMatch st → active ∈ ids st →
  keysMatch (sendMessageSettle active reply iso st).
Proof.
  intros Hk Hin. destruct reply as [m|err]; [|done].
  by eapply keysMatch_insert_listed.
Qed.

Lemma keysMatch_sendMessage (active : option string) (seen : Store)
    (userText : string) (now : Z) (iso : string) (reply : Reply)
    (iso' : string) (st : Store) :
  keysMatch st →
  (sendRejected active userText = false → default "" active ∈ ids st) →
  keysMatch (sendMessage active seen userText now iso reply iso' st).
Proof.
  intros Hk Hin. unfold sendMessage.
  destruct (sendRejected active userText); [done|].
  apply keysMatch_sendMessageSettle.
  - apply keysMatch_sendMessageBegin; auto.
  - rewrite ids_sendMessageBegin. auto.
Qed.

Lemma keysMatch_clearConversation (id : option string) (st : Store) :
  keysMatch st → (truthy id = true → default "" id ∈ ids st) →
  keysMatch (clearConversation id st).
Proof.
  intros Hk Hin. unfold clearConversation.
  destruct (truthy id); [|done]. simpl.
  eapply keysMatch_insert_listed; [done | by apply Hin | done | done].
Qed.

Lemma keysMatch_seedStore : keysMatch seedStore.
Proof.
  intros k. unfold ids. simpl.
  unfold UseChat.seedConversationsById.
  rewrite !lookup_insert_is_Some, lookup_empty, !elem_of_cons, elem_of_nil.
  split.
  - intros [->|[->|[]]]; [right; split; [done|by left] | by left].
  - intros [<-|[_ [<-|[_ [? [=]]]]]]; [by right; left | by left].
Qed.

End KeySets.

(** ** hydrate and persist *)

Section PersistenceProperties.
Import Persistence.

Variable JSON_parse : string -> option JSON.
Variable JSON_stringify : JSON -> string.

Local Abbreviation hydrate := (Persistence.hydrate JSON_parse).
Local Abbreviation persist := (Persistence.persist JSON_stringify).
Local Abbreviation persistOnRender :=
  (Persistence.persistOnRender JSON_stringify).
Local Abbreviation storedSnapshot := (Persistence.storedSnapshot JSON_parse).

Lemma truthyJ_Some_inv (v : option JSON) :
  truthyJ v = true → ∃ x, v = Some x.
Proof. destruct v; [eauto | done]. Qed.

#[local] Arguments truthyJ : simpl never.
#[local] Arguments versionMatches : simpl never.

(** Hydrate never throws, and what it leaves is decided by the stored
    snapshot alone. *)
Lemma hydrate_storedSnapshot (readOk : bool) (ls : LocalStorage) (st : Cells) :
  hydrate readOk ls st = Normal (hydrated (storedSnapshot readOk ls) st).
Proof.
  unfold Persistence.hydrate, Persistence.hydrateTry,
    Persistence.storedSnapshot, Persistence.parse, getItem, hydrated.
  destruct readOk; simpl; [|done].
  destruct (ls !! STORAGE_KEY) as [raw|]; simpl; [|done].
  destruct (truthyStr raw); simpl; [|done].
  destruct (JSON_parse raw) as [parsed|]; simpl; [|done].
  destruct parsed as [| | | | |ms]; simpl; try done.
  destruct (versionMatches (member "version" ms)); simpl.
  - destruct (member "conversations" ms) as [c|]; simpl; [|done].
    destruct (member "conversationsById" ms) as [b|]; simpl.
    + by destruct (truthyJ (Some c) && truthyJ (Some b)).
    + by rewrite andb_false_r.
  - destruct (member "conversations" ms) as [c|]; simpl; [|done].
    by destruct (member "conversationsById" ms).
Qed.

(** C7.  The hydrate effect never throws and sets the hydrated flag in
    every branch.  It leaves the two collections as they are (the seed
    state, with its two conversations, when it runs) when nothing is
    stored, when the stored text does not parse, when the parsed version
    is not the expected one, and when [conversations] or
    [conversationsById] is missing; it installs the two stored values as
    they are when the version matches and both fields are present, that
    is, hold a truthy value, and in no other case. *)
Theorem hydrate_outcomes (readOk : bool) (ls : LocalStorage) (st : Cells) :
  ∃ st',
    hydrate readOk ls st = Normal st'
    ∧ isHydrated st' = true
    ∧ conv_id <$> UseChat.seedConversations = ["c1"; "c2"]
    ∧ let kept :=
        conversations st' = conversations st
        ∧ conversationsById st' = conversationsById st in
      (ls !! STORAGE_KEY = None → kept)
      ∧ (∀ raw, ls !! STORAGE_KEY = Some raw → JSON_parse raw = None → kept)
      ∧ (∀ raw parsed,
           ls !! STORAGE_KEY = Some raw → JSON_parse raw = Some parsed →
           versionMatches (getOpt parsed "version") = false → kept)
      ∧ (∀ raw parsed,
           ls !! STORAGE_KEY = Some raw → JSON_parse raw = Some parsed →
           getOpt parsed "conversations" = None
           ∨ getOpt parsed "conversationsById" = None → kept)
      ∧ (∀ raw parsed,
           readOk = true → ls !! STORAGE_KEY = Some raw →
           truthyStr raw = true → JSON_parse raw = Some parsed →
           versionMatches (getOpt parsed "version") = true →
           truthyJ (getOpt parsed "conversations") = true →
           truthyJ (getOpt parsed "conversationsById") = true →
           Some (conversations st') = getOpt parsed "conversations"
           ∧ Some (conversationsById st') = getOpt parsed "conversationsById")
      ∧ (storedSnapshot readOk ls = None → kept).
Proof.
  exists (hydrated (storedSnapshot readOk ls) st).
  split; [apply hydrate_storedSnapshot|]. split; [done|]. split; [done|].
  assert (Hnone : storedSnapshot readOk ls = None →
    conversations (hydrated (storedSnapshot readOk ls) st) = conversations st
    ∧ conversationsById (hydrated (storedSnapshot readOk ls) st)
      = conversationsById st).
  { by intros ->. }
  simpl. split; [|split; [|split; [|split; [|split]]]].
  - intros Hls. apply Hnone. unfold Persistence.storedSnapshot.
    rewrite Hls. by destruct readOk.
  - intros raw Hls Hp. apply Hnone. unfold Persistence.storedSnapshot.
    rewrite Hls. destruct readOk; simpl; [|done].
    rewrite Hp. by destruct (truthyStr raw).
  - intros raw parsed Hls Hp Hv. apply Hnone.
    unfold Persistence.storedSnapshot.
    rewrite Hls. destruct readOk; simpl; [|done]. rewrite Hp.
    destruct (truthyStr raw); simpl; [|done].
    destruct (getOpt parsed "conversations"); simpl; [|done].
    destruct (getOpt parsed "conversationsById"); simpl; [|done].
    by rewrite Hv.
  - intros raw parsed Hls Hp Hmiss. apply Hnone.
    unfold Persistence.storedSnapshot.
    rewrite Hls. destruct readOk; simpl; [|done]. rewrite Hp.
    destruct (truthyStr raw); simpl; [|done].
    destruct Hmiss as [-> | ->]; [done|].
    by destruct (getOpt parsed "conversations").
  - intros raw parsed -> Hls Ht Hp Hv Hc Hb.
    destruct (truthyJ_Some_inv _ Hc) as [c Ec].
    destruct (truthyJ_Some_inv _ Hb) as [b Eb].
    unfold hydrated, Persistence.storedSnapshot.
    rewrite Hls. simpl. rewrite Ht, Hp. simpl. rewrite Ec, Eb. simpl.
    rewrite Ec in Hc. rewrite Eb in Hb. by rewrite Hv, Hc, Hb.
  - exact Hnone.
Qed.

(** The typed collections can be read back from their JS values. *)
Lemma roleName_inj (r r' : Role) : roleName r = roleName r' → r = r'.
Proof. by destruct r, r'. Qed.

Global Instance messageJSON_inj : Inj (=) (=) messageJSON.
Proof.
  intros [i r c t] [i' r' c' t']. unfold messageJSON. simpl.
  intros [= -> Hr -> Ht]. apply roleName_inj in Hr as ->.
  destruct t, t'; simplify_eq; done.
Qed.

Global Instance conversationJSON_inj : Inj (=) (=) conversationJSON.
Proof. intros [i t] [i' t']. unfold conversationJSON. by intros [= -> ->]. Qed.

Global Instance conversationsJSON_inj : Inj (=) (=) conversationsJSON.
Proof.
  intros cs cs'. unfold conversationsJSON. intros [= H].
  by apply (inj (fmap conversationJSON)) in H.
Qed.

Global Instance conversationsByIdJSON_inj : Inj (=) (=) conversationsByIdJSON.
Proof.
  intros m m'. unfold conversationsByIdJSON. intros [= H].
  apply map_to_list_inj.
  assert (Hinj : Inj (=) (=)
    (λ kv : string * list Message, (kv.1, JArr (messageJSON <$> kv.2)))).
  { intros [k ms] [k' ms']. simpl. intros [= -> Hms].
    by apply (inj (fmap messageJSON)) in Hms as ->. }
  by apply (inj (fmap _)) in H as ->.
Qed.

Lemma encodes_inj (cells : Cells) (st st' : UseChat.Store) :
  encodes cells st → encodes cells st' →
  UseChat.conversations st' = UseChat.conversations st
  ∧ UseChat.conversationsById st' = UseChat.conversationsById st.
Proof.
  intros [Hc Hb] [Hc' Hb']. rewrite Hc in Hc'. rewrite Hb in Hb'.
  split; [by apply (inj conversationsJSON) | by apply (inj conversationsByIdJSON)].
Qed.

Lemma truthyJ_conversationsJSON (cs : list Conversation) :
  truthyJ (Some (conversationsJSON cs)) = true.
Proof. done. Qed.

Lemma truthyJ_conversationsByIdJSON (byId : gmap string (list Message)) :
  truthyJ (Some (conversationsByIdJSON byId)) = true.
Proof. done. Qed.

(** What a successful write of the current state stores. *)
Lemma persist_writes (st : Cells) (ls : LocalStorage) :
  isHydrated st = true →
  persist true st ls
  = Normal (st,
            <[STORAGE_KEY :=
                JSON_stringify
                  (snapshot (conversations st) (conversationsById st))]> ls).
Proof. unfold Persistence.persist. by intros ->. Qed.

(** C9.  Round trip: for any conversation list and message map, if the
    persist step writes the snapshot [{version, conversations,
    conversationsById}] and hydrate then runs on the stored text (same
    version), the cells hold the very values that were persisted, and the
    list and map they stand for are the persisted ones.  The platform's
    [JSON] is assumed to read back this snapshot from its own text and to
    reject the empty text. *)
Theorem persist_then_hydrate (cs : list Conversation)
    (byId : gmap string (list Message)) (ls : LocalStorage) (st0 : Cells) :
  let persisted :=
    {| conversations := conversationsJSON cs;
       conversationsById := conversationsByIdJSON byId;
       isHydrated := true |} in
  let payload :=
    snapshot (conversationsJSON cs) (conversationsByIdJSON byId) in
  JSON_parse "" = None →
  JSON_parse (JSON_stringify payload) = Some payload →
  ∃ ls',
    persist true persisted ls = Normal (persisted, ls')
    ∧ ls' !! STORAGE_KEY = Some (JSON_stringify payload)
    ∧ hydrate true ls' st0 = Normal persisted
    ∧ ∀ st2, encodes persisted st2 →
        UseChat.conversations st2 = cs ∧ UseChat.conversationsById st2 = byId.
Proof.
  intros persisted payload Hempty Hround.
  eexists. split; [by apply persist_writes|].
  split; [by rewrite lookup_insert_eq|]. split.
  - rewrite hydrate_storedSnapshot. unfold Persistence.storedSnapshot.
    rewrite lookup_insert_eq. simpl.
    fold payload.
    assert (Ht : truthyStr (JSON_stringify payload) = true).
    { apply truthyStr_true. intros Heq. rewrite Heq in Hround. congruence. }
    rewrite Ht, Hround. done.
  - intros st2 Henc.
    apply (encodes_inj persisted
             {| UseChat.conversations := cs;
                UseChat.conversationsById := byId;
                UseChat.isLoading := false;
                UseChat.error := None |} st2); [done | done].
Qed.

(** C10.  The persist effect writes nothing while the hydrated flag is
    false.  Once it is true, after every render in which the conversation
    list or the message map has changed the effect writes, under the key
    "chat-app:conversations", the text of the object whose members are
    [version] (the number 1), [conversations] and [conversationsById], in
    this order, the latter two holding the current list and map; nothing
    else in the storage changes.  A write that throws is caught: the
    effect completes normally, the cells are as they were and so is the
    storage. *)
Theorem persist_waits_for_hydration (prev : option Cells)
    (identical writeOk : bool) (st : Cells) (ls : LocalStorage) :
  (isHydrated st = false →
   persistOnRender prev identical writeOk st ls = Normal (st, ls))
  ∧ (isHydrated st = true →
     (∀ p, prev = Some p →
        conversations p ≠ conversations st
        ∨ conversationsById p ≠ conversationsById st) →
     persistOnRender prev identical true st ls
     = Normal (st,
               <["chat-app:conversations" :=
                   JSON_stringify
                     (JObj [("version", JNum 1);
                            ("conversations", conversations st);
                            ("conversationsById", conversationsById st)])]>
                 ls))
  ∧ persistOnRender prev identical false st ls = Normal (st, ls).
Proof.
  unfold Persistence.persistOnRender, Persistence.persist. repeat split.
  - intros ->. by destruct (effectRuns prev identical st).
  - intros -> Hch. simpl.
    replace (effectRuns prev identical st) with true; [done|].
    destruct prev as [p|]; [|done]. simpl.
    rewrite bool_decide_false, andb_false_r; [done|].
    intros (Hc & Hb & _). destruct (Hch p eq_refl); congruence.
  - destruct (effectRuns prev identical st); [|done].
    by destruct (isHydrated st).
Qed.

(** Matching key sets are a matter of the two collections alone. *)
Lemma keysMatch_same_collections (st st' : UseChat.Store) :
  UseChat.conversations st' = UseChat.conversations st →
  UseChat.conversationsById st' = UseChat.conversationsById st →
  StoreSpec.keysMatch st' ↔ StoreSpec.keysMatch st.
Proof.
  intros Hc Hb. unfold StoreSpec.keysMatch, StoreSpec.ids.
  by rewrite Hc, Hb.
Qed.

(** C3 (as amended).  From a store whose metadata list and message map
    have matching key sets: [createConversation] keeps them matching;
    [sendMessage] keeps them matching when it does nothing or the active
    id is in the list; [clearConversation] keeps them matching exactly
    when it does nothing or its id is in the list: for a truthy id that is
    not in the list it leaves the list alone and adds that id to the
    message map, so the key sets differ; [hydrate] either leaves the two
    collections alone or installs the stored pair as it is, so that, when
    the stored pair holds a list and a map, the key sets match after it
    exactly when those of the stored pair do. *)
Theorem matching_keys_kept (st : UseChat.Store) :
  StoreSpec.keysMatch st →
  (∀ active now,
     StoreSpec.keysMatch (UseChat.createConversation active now st).2)
  ∧ (∀ active seen userText now iso reply iso',
       (UseChat.sendRejected active userText = false →
        default "" active ∈ StoreSpec.ids st) →
       StoreSpec.keysMatch
         (UseChat.sendMessage active seen userText now iso reply iso' st))
  ∧ (∀ conversationId,
       StoreSpec.keysMatch (UseChat.clearConversation conversationId st)
       ↔ (truthy conversationId = true →
          default "" conversationId ∈ StoreSpec.ids st))
  ∧ (∀ id, truthyStr id = true → id ∉ StoreSpec.ids st →
       UseChat.conversations (UseChat.clearConversation (Some id) st)
       = UseChat.conversations st
       ∧ UseChat.conversationsById (UseChat.clearConversation (Some id) st)
         = <[id := []]> (UseChat.conversationsById st)
       ∧ UseChat.conversationsById st !! id = None)
  ∧ (∀ readOk ls cells, encodes cells st →
       ∃ cells',
         hydrate readOk ls cells = Normal cells'
         ∧ (storedSnapshot readOk ls = None →
            encodes cells' st
            ∧ ∀ st', encodes cells' st' → StoreSpec.keysMatch st')
         ∧ (∀ st2,
              storedSnapshot readOk ls
              = Some (conversationsJSON (UseChat.conversations st2),
                      conversationsByIdJSON (UseChat.conversationsById st2)) →
              encodes cells' st2
              ∧ ∀ st', encodes cells' st' →
                  (StoreSpec.keysMatch st' ↔ StoreSpec.keysMatch st2))).
Proof.
  intros Hk. split; [|split; [|split; [|split]]].
  - intros. by apply keysMatch_createConversation.
  - intros. by apply keysMatch_sendMessage.
  - intros cid. split; [|by apply keysMatch_clearConversation].
    intros Hk' Ht. specialize (Hk' (default "" cid)).
    unfold UseChat.clearConversation, StoreSpec.ids in Hk'.
    rewrite Ht in Hk'. simpl in Hk'. apply Hk'.
    rewrite lookup_insert_eq. by eexists.
  - intros id Ht Hid. unfold UseChat.clearConversation. simpl. rewrite Ht.
    simpl. split; [done|]. split; [done|].
    destruct (UseChat.conversationsById st !! id) eqn:E; [|done].
    exfalso. apply Hid, Hk. by eexists.
  - intros readOk ls cells Henc. eexists.
    split; [apply hydrate_storedSnapshot|]. split.
    + intros ->. split; [done|]. intros st' Henc'.
      destruct (encodes_inj _ _ _ Henc Henc') as [Hc Hb].
      by apply (keysMatch_same_collections st st').
    + intros st2 ->. split; [done|]. intros st' Henc'.
      assert (Henc2 : encodes
        (hydrated
           (Some (conversationsJSON (UseChat.conversations st2),
                  conversationsByIdJSON (UseChat.conversationsById st2)))
           cells) st2) by done.
      destruct (encodes_inj _ _ _ Henc2 Henc') as [Hc Hb].
      by apply keysMatch_same_collections.
Qed.

End PersistenceProperties.

(** C3, the claim as it stands, fails: clearing an id that is not in the
    metadata list adds a key to the message map that the list lacks. *)
Lemma clearConversation_unlisted_id :
  StoreSpec.keysMatch UseChat.seedStore
  ∧ ¬ StoreSpec.keysMatch
        (UseChat.clearConversation (Some "c9") UseChat.seedStore).
Proof.
  split; [apply keysMatch_seedStore|].
  intros H. destruct (H "c9") as [_ Hin].
  assert (Hs : "c9" ∈ StoreSpec.ids UseChat.seedStore).
  { apply Hin. vm_compute. by eexists. }
  unfold StoreSpec.ids in Hs. simpl in Hs.
  rewrite !elem_of_cons, elem_of_nil in Hs. by destruct Hs as [|[|]].
Qed.

Lemma keysMatch_dom (st : UseChat.Store) :
  StoreSpec.keysMatch st
  ↔ list_to_set (StoreSpec.ids st)
    = (dom (UseChat.conversationsById st) : gset string).
Proof.
  unfold StoreSpec.keysMatch. rewrite set_eq.
  by setoid_rewrite elem_of_list_to_set; setoid_rewrite elem_of_dom.
Qed.

Lemma matching_keys_kept_witness :
  let id := "c-1734517800000" in
  let created := (UseChat.createConversation (Some id) 1734517900000 usedStore).2 in
  let sent :=
    UseChat.sendMessage (Some id) usedStore "again" 1734517905000
      "2024-12-18T10:31:45.000Z" (UseChat.Rejected "network down")
      "2024-12-18T10:31:46.000Z" usedStore in
  let cleared := UseChat.clearConversation (Some id) usedStore in
  let unlisted := UseChat.clearConversation (Some "c9") usedStore in
  let ls : LocalStorage :=
    {[ Persistence.STORAGE_KEY :=
         SampleJSON.stringify
           (Persistence.snapshot (Persistence.conversations sampleCells)
              (Persistence.conversationsById sampleCells)) ]} in
  let cells :=
    {| Persistence.conversations :=
         conversationsJSON (UseChat.conversations usedStore);
       Persistence.conversationsById :=
         conversationsByIdJSON (UseChat.conversationsById usedStore);
       Persistence.isHydrated := false |} in
  StoreSpec.keysMatch usedStore
  ∧ (StoreSpec.ids created = [id; "c-1734517900000"]
     ∧ StoreSpec.keysMatch created)
  ∧ (length (UseChat.messagesOf (UseChat.conversationsById sent) id) = 2
     ∧ StoreSpec.keysMatch sent)
  ∧ (UseChat.messagesOf (UseChat.conversationsById cleared) id = []
     ∧ StoreSpec.keysMatch cleared)
  ∧ (UseChat.conversationsById unlisted !! "c9" = Some []
     ∧ ¬ StoreSpec.keysMatch unlisted)
  ∧ ∃ cells',
      Persistence.hydrate SampleJSON.parse true ls cells = Normal cells'
      ∧ Persistence.encodes cells' threeConversations
      ∧ ∀ st', Persistence.encodes cells' st' →
          (StoreSpec.keysMatch st' ↔ StoreSpec.keysMatch threeConversations).
Proof.
  intros id created sent cleared unlisted ls cells.
  assert (Hk : StoreSpec.keysMatch usedStore).
  { apply keysMatch_dom. by vm_compute. }
  assert (Hin : id ∈ StoreSpec.ids usedStore) by apply list_elem_of_here.
  assert (Hout : "c9" ∉ StoreSpec.ids usedStore).
  { intros H. apply list_elem_of_singleton in H. discriminate H. }
  assert (Hstored : Persistence.storedSnapshot SampleJSON.parse true ls
    = Some (conversationsJSON (UseChat.conversations threeConversations),
            conversationsByIdJSON
              (UseChat.conversationsById threeConversations)))
    by (by vm_compute).
  destruct (matching_keys_kept SampleJSON.parse usedStore Hk)
    as (Hcreate & Hsend & Hclear & Hadds & Hhydrate).
  split; [exact Hk|]. split; [|split; [|split; [|split]]].
  - split; [by vm_compute | apply Hcreate].
  - split; [by vm_compute|]. apply Hsend. intros _. exact Hin.
  - split; [by vm_compute|]. apply Hclear. intros _. exact Hin.
  - split; [by vm_compute|]. intros H. apply Hout.
    by apply (proj1 (Hclear (Some "c9")) H).
  - assert (Henc : Persistence.encodes cells usedStore)
      by (split; reflexivity).
    destruct (Hhydrate true ls cells Henc) as (cells' & Hh & _ & Hsome).
    exists cells'. split; [exact Hh|]. exact (Hsome threeConversations Hstored).
Defined.

Lemma persist_then_hydrate_witness :
  let payload :=
    Persistence.snapshot (Persistence.conversations sampleCells)
      (Persistence.conversationsById sampleCells) in
  (SampleJSON.parse "" = None
   ∧ SampleJSON.parse (SampleJSON.stringify payload) = Some payload)
  ∧ ∃ ls',
      Persistence.persist SampleJSON.stringify true sampleCells ∅
      = Normal (sampleCells, ls')
      ∧ ls' !! Persistence.STORAGE_KEY = Some (SampleJSON.stringify payload)
      ∧ Persistence.hydrate SampleJSON.parse true ls' Persistence.seedCells
        = Normal sampleCells
      ∧ ∀ st2, Persistence.encodes sampleCells st2 →
          UseChat.conversations st2 = UseChat.conversations threeConversations
          ∧ UseChat.conversationsById st2
            = UseChat.conversationsById threeConversations.
Proof.
  assert (H : SampleJSON.parse "" = None
    ∧ SampleJSON.parse
        (SampleJSON.stringify
           (Persistence.snapshot (Persistence.conversations sampleCells)
              (Persistence.conversationsById sampleCells)))
      = Some (Persistence.snapshot (Persistence.conversations sampleCells)
                (Persistence.conversationsById sampleCells))).
  { split; by vm_compute. }
  split; [exact H|].
  exact (persist_then_hydrate SampleJSON.parse SampleJSON.stringify
           (UseChat.conversations threeConversations)
           (UseChat.conversationsById threeConversations) ∅
           Persistence.seedCells (proj1 H) (proj2 H)).
Defined.

(** * Further properties *)

(** ** Strings and decimal numerals *)

Section Numerals.
Import MessageList MoreSpec.

Lemma string_length_app (a b : string) :
  String.length (a +:+ b) = String.length a + String.length b.
Proof. induction a as [|c a IH]; simpl; [done | by rewrite IH]. Qed.

Lemma string_app_assoc (a b c : string) : (a +:+ b) +:+ c = a +:+ (b +:+ c).
Proof.
  induction a as [|x a IH]; [done|].
  change (String x ((a +:+ b) +:+ c) = String x (a +:+ (b +:+ c))).
  by rewrite IH.
Qed.

(** Two texts that end in tails of the same length agree piecewise. *)
Lemma string_app_inj_tail (a b s t : string) :
  a +:+ s = b +:+ t → String.length s = String.length t → a = b ∧ s = t.
Proof.
  revert b. induction a as [|c a IH]; intros [|d b] Heq Hlen.
  - change (s = t) in Heq. done.
  - exfalso. change (s = String d (b +:+ t)) in Heq.
    rewrite Heq in Hlen. simpl in Hlen.
    rewrite string_length_app in Hlen. lia.
  - exfalso. change (String c (a +:+ s) = t) in Heq.
    rewrite <- Heq in Hlen. simpl in Hlen.
    rewrite string_length_app in Hlen. lia.
  - change (String c (a +:+ s) = String d (b +:+ t)) in Heq.
    injection Heq as -> Heq. by destruct (IH b Heq Hlen) as [-> ->].
Qed.

Lemma allDigits_dashFree (s : string) : allDigits s = true → dashFree s = true.
Proof.
  induction s as [|c s IH]; simpl; [done|].
  intros [Hc Hs]%andb_true_iff. rewrite IH by done.
  rewrite andb_true_r, negb_true_iff, bool_decide_eq_false.
  intros ->. done.
Qed.

Lemma isDigit_pretty_N_char (x : N) : isDigit (pretty_N_char x) = true.
Proof. unfold pretty_N_char. by repeat case_match. Qed.

Lemma digit_value_pretty_N_char (x : N) :
  (x < 10)%N →
  Z.of_nat (nat_of_ascii (pretty_N_char x) - 48) = Z.of_N x.
Proof.
  intros Hx. unfold pretty_N_char.
  repeat case_match; subst; simpl; try lia.
Qed.

(** Printing a natural number prepends its digits: what [digitsValue]
    reads back from them is the number. *)
Lemma pretty_N_go_digits (x : N) :
  ∃ ds, allDigits ds = true
        ∧ (∀ s, pretty_N_go x s = ds +:+ s)
        ∧ ∃ k : nat, ∀ acc s,
            digitsValue acc (ds +:+ s)
            = digitsValue (acc * 10 ^ Z.of_nat k + Z.of_N x) s.
Proof.
  pose proof (N.lt_wf_0 x) as Hacc. induction Hacc as [x _ IH].
  destruct (decide (x = 0%N)) as [->|Hx].
  - exists "". split; [done|]. split.
    + intros s. by rewrite pretty_N_go_0.
    + exists 0. intros acc s. simpl. f_equal. lia.
  - destruct (IH (x `div` 10)%N) as (ds & Hd & Hgo & k & Hval).
    { apply N.div_lt; lia. }
    exists (ds +:+ String (pretty_N_char (x `mod` 10)) ""). split; [|split].
    + clear Hgo Hval. induction ds as [|c ds IHds]; simpl in *.
      * by rewrite isDigit_pretty_N_char.
      * apply andb_true_iff in Hd as [-> Hd]. by apply IHds.
    + intros s. rewrite pretty_N_go_step by lia.
      by rewrite Hgo, string_app_assoc.
    + exists (S k). intros acc s. rewrite string_app_assoc, Hval. simpl.
      rewrite isDigit_pretty_N_char, digit_value_pretty_N_char
        by (apply N.mod_lt; lia).
      f_equal. rewrite Nat2Z.inj_succ, Z.pow_succ_r by lia.
      pose proof (N.div_mod x 10 ltac:(lia)) as Hdm.
      assert (Z.of_N x = 10 * Z.of_N (x `div` 10) + Z.of_N (x `mod` 10))%Z
        by lia.
      lia.
Qed.

Lemma pretty_N_digits (x : N) :
  allDigits (pretty x) = true ∧ digitsValue 0 (pretty x) = Some (Z.of_N x).
Proof.
  unfold pretty, pretty_N. case_decide as H0; [by subst|].
  destruct (pretty_N_go_digits x) as (ds & Hd & Hgo & k & Hval).
  rewrite Hgo. split.
  - clear Hgo Hval. induction ds as [|c ds IH]; simpl in *; [done|].
    apply andb_true_iff in Hd as [-> Hd]. by apply IH.
  - rewrite Hval. simpl. f_equal; lia.
Qed.

Lemma pretty_nat_digits (n : nat) :
  allDigits (pretty n) = true ∧ digitsValue 0 (pretty n) = Some (Z.of_nat n).
Proof.
  unfold pretty, pretty_nat.
  destruct (pretty_N_digits (N.of_nat n)) as [H1 H2].
  split; [done|]. rewrite H2. f_equal. lia.
Qed.

Lemma pretty_Z_nonneg_digits (z : Z) :
  (0 ≤ z)%Z →
  allDigits (pretty z) = true ∧ digitsValue 0 (pretty z) = Some z.
Proof.
  intros Hz. unfold pretty, pretty_Z.
  destruct z as [|p|p]; [done| |lia].
  exact (pretty_N_digits (N.pos p)).
Qed.

(** Checking a property of the numbers below a bound by running it. *)
Lemma forall_below (P : nat → bool) (n : nat) :
  forallb P (seq 0 n) = true → ∀ k, k < n → P k = true.
Proof.
  intros H k Hk. rewrite forallb_forall in H. apply H.
  apply in_seq. lia.
Qed.

(** A number below 100, padded to two characters, is two digits that
    read back as the number. *)
Lemma padStart2_two_digits (k : nat) :
  k < 100 →
  String.length (padStart2 (pretty k)) = 2
  ∧ allDigits (padStart2 (pretty k)) = true
  ∧ digitsValue 0 (padStart2 (pretty k)) = Some (Z.of_nat k).
Proof.
  intros Hk.
  pose proof (forall_below
    (λ k, bool_decide (String.length (padStart2 (pretty k)) = 2
                       ∧ allDigits (padStart2 (pretty k)) = true
                       ∧ digitsValue 0 (padStart2 (pretty k))
                         = Some (Z.of_nat k))) 100) as H.
  eapply bool_decide_eq_true_1, H; [by vm_compute | done].
Qed.

End Numerals.

(** ** The day bucket key and its label *)

Section DayKeys.
Import MessageList MoreSpec.

Variable newDate : string -> option LocalDate.
Variable dayRel : jsnum -> jsnum -> jsnum -> DayRel.

Local Abbreviation getDateString := (MessageList.getDateString newDate).
Local Abbreviation formatDateDivider := (MessageList.formatDateDivider dayRel).

Lemma string_app_nil_r (a : string) : a +:+ "" = a.
Proof.
  induction a as [|c a IH]; [done|].
  change (String c (a +:+ "") = String c a). by rewrite IH.
Qed.

Lemma getDateString_valid (t : string) (d : LocalDate) :
  truthyStr t = true → newDate t = Some d →
  getDateString (Some t)
  = pretty (getFullYear d)
    +:+ String "-" (padStart2 (pretty (getMonth d + 1))
                    +:+ String "-" (padStart2 (pretty (getDate d)))).
Proof. intros Ht Hd. unfold MessageList.getDateString. by rewrite Ht, Hd. Qed.

(** X1.  Two valid time stamps get the same bucket key exactly when they
    fall on the same local calendar day (same year, month and day of the
    month); the key of a valid time stamp is never empty, and the key of a
    missing, empty or unparsable time stamp is the empty string. *)
Theorem bucket_key_identifies_day (t1 t2 : string) (d1 d2 : LocalDate) :
  truthyStr t1 = true → truthyStr t2 = true →
  newDate t1 = Some d1 → newDate t2 = Some d2 →
  getMonth d1 < 12 → getMonth d2 < 12 →
  getDate d1 ≤ 31 → getDate d2 ≤ 31 →
  (getDateString (Some t1) = getDateString (Some t2) ↔ d1 = d2)
  ∧ getDateString (Some t1) ≠ ""
  ∧ getDateString None = ""
  ∧ getDateString (Some "") = ""
  ∧ (∀ t, newDate t = None → getDateString (Some t) = "").
Proof.
  intros Ht1 Ht2 Hd1 Hd2 Hm1 Hm2 Hday1 Hday2.
  rewrite (getDateString_valid t1 d1), (getDateString_valid t2 d2) by done.
  destruct (padStart2_two_digits (getMonth d1 + 1)) as (Lm1 & _ & Vm1); [lia|].
  destruct (padStart2_two_digits (getMonth d2 + 1)) as (Lm2 & _ & Vm2); [lia|].
  destruct (padStart2_two_digits (getDate d1)) as (Ld1 & _ & Vd1); [lia|].
  destruct (padStart2_two_digits (getDate d2)) as (Ld2 & _ & Vd2); [lia|].
  split; [|split; [|split; [|split]]].
  - split; [|by intros ->].
    intros Heq. apply string_app_inj_tail in Heq as [Hy Heq].
    2:{ simpl. rewrite !string_length_app. simpl. lia. }
    injection Heq as Heq. apply string_app_inj_tail in Heq as [Hm Heq].
    2:{ simpl. lia. }
    injection Heq as Hd.
    apply (inj pretty) in Hy.
    rewrite Hm in Vm1. rewrite Hd in Vd1.
    destruct d1 as [y1 m1 day1], d2 as [y2 m2 day2]. simpl in *.
    f_equal; [done | |]; simplify_eq; lia.
  - destruct (pretty (getFullYear d1)); discriminate.
  - done.
  - done.
  - intros t Hn. unfold MessageList.getDateString.
    rewrite Hn. by destruct (truthyStr t).
Qed.

Lemma splitDash_dashFree (a cur rest : string) :
  dashFree a = true → splitDash cur (a +:+ rest) = splitDash (cur +:+ a) rest.
Proof.
  revert cur. induction a as [|c a IH]; intros cur Ha.
  - by rewrite string_app_nil_r.
  - simpl in Ha. apply andb_true_iff in Ha as [Hc Ha].
    change (String c a +:+ rest) with (String c (a +:+ rest)). simpl.
    apply negb_true_iff in Hc. rewrite Hc, IH by done.
    by rewrite string_app_assoc.
Qed.

Lemma splitDash_three (y m d : string) :
  dashFree y = true → dashFree m = true → dashFree d = true →
  splitDash "" (y +:+ String "-" (m +:+ String "-" d)) = [y; m; d].
Proof.
  intros Hy Hm Hd. rewrite splitDash_dashFree by done. simpl.
  rewrite splitDash_dashFree by done. simpl.
  rewrite <- (string_app_nil_r d) at 1.
  rewrite splitDash_dashFree by done. done.
Qed.

Lemma Number_digits (s : string) (z : Z) :
  digitsValue 0 s = Some z → Number s = Num z.
Proof. unfold Number. by intros ->. Qed.

Lemma pretty_Z_of_nat (n : nat) : pretty (Z.of_nat n) = pretty n.
Proof. by destruct n. Qed.

(** X2.  The label is computed from the very day the key was made from:
    for a valid time stamp of a year that is not negative,
    [formatDateDivider] reads back year, month and day of the month from
    the key, asks the clock about exactly that day, and otherwise prints
    the abbreviated month, the day without padding and the year. *)
Theorem divider_label_of_bucket_key (t : string) (d : LocalDate) :
  truthyStr t = true → newDate t = Some d →
  (0 ≤ getFullYear d)%Z → getMonth d < 12 → getDate d ≤ 31 →
  formatDateDivider (getDateString (Some t))
  = match dayRel (Num (getFullYear d)) (Num (Z.of_nat (getMonth d + 1)))
            (Num (Z.of_nat (getDate d))) with
    | IsToday => "Today"
    | IsYesterday => "Yesterday"
    | OtherDay =>
        default "" (monthNames !! getMonth d)
        +:+ " " +:+ pretty (getDate d) +:+ ", " +:+ pretty (getFullYear d)
    end.
Proof.
  intros Ht Hd Hy Hm Hday.
  assert (Hkey : truthyStr (getDateString (Some t)) = true).
  { rewrite (getDateString_valid t d) by done.
    unfold truthyStr. rewrite bool_decide_eq_false_2; [done|].
    destruct (pretty (getFullYear d)); discriminate. }
  unfold MessageList.formatDateDivider. rewrite Hkey.
  rewrite (getDateString_valid t d) by done.
  destruct (pretty_Z_nonneg_digits _ Hy) as [Dy Vy].
  destruct (padStart2_two_digits (getMonth d + 1)) as (_ & Dm & Vm); [lia|].
  destruct (padStart2_two_digits (getDate d)) as (_ & Dd & Vd); [lia|].
  rewrite splitDash_three by (by apply allDigits_dashFree).
  simpl. rewrite (Number_digits _ _ Vy), (Number_digits _ _ Vm),
    (Number_digits _ _ Vd).
  destruct (dayRel _ _ _); [done | done |].
  unfold monthName, showNum.
  replace (1 <=? Z.of_nat (getMonth d + 1))%Z with true
    by (symmetry; apply Z.leb_le; lia).
  replace (Z.to_nat (Z.of_nat (getMonth d + 1) - 1)) with (getMonth d) by lia.
  rewrite pretty_Z_of_nat.
  destruct (monthNames !! getMonth d) as [name|] eqn:En; [done|].
  apply lookup_ge_None in En. simpl in En. lia.
Qed.

(** X3.  A year before year 0 is misread: its key begins with a dash, so
    [formatDateDivider] takes the year to be 0, the month to be the
    absolute value of the year and the day to be the month. *)
Theorem divider_label_negative_year (t : string) (d : LocalDate) :
  truthyStr t = true → newDate t = Some d →
  (getFullYear d < 0)%Z → getMonth d < 12 → getDate d ≤ 31 →
  formatDateDivider (getDateString (Some t))
  = match dayRel (Num 0) (Num (- getFullYear d))
            (Num (Z.of_nat (getMonth d + 1))) with
    | IsToday => "Today"
    | IsYesterday => "Yesterday"
    | OtherDay =>
        monthName (Num (- getFullYear d))
        +:+ " " +:+ pretty (getMonth d + 1) +:+ ", 0"
    end.
Proof.
  intros Ht Hd Hy Hm Hday.
  assert (Hkey : truthyStr (getDateString (Some t)) = true).
  { rewrite (getDateString_valid t d) by done.
    unfold truthyStr. rewrite bool_decide_eq_false_2; [done|].
    destruct (pretty (getFullYear d)); discriminate. }
  unfold MessageList.formatDateDivider. rewrite Hkey.
  rewrite (getDateString_valid t d) by done.
  destruct (getFullYear d) as [|p|p] eqn:Ey; [lia | lia |].
  change (pretty (Z.neg p)) with (String "-" (pretty (N.pos p))).
  destruct (pretty_N_digits (N.pos p)) as [Dy Vy].
  destruct (padStart2_two_digits (getMonth d + 1)) as (_ & Dm & Vm); [lia|].
  destruct (padStart2_two_digits (getDate d)) as (_ & Dd & Vd); [lia|].
  change (String "-" (pretty (N.pos p)) +:+ ?x)
    with (String "-" (pretty (N.pos p) +:+ x)).
  simpl splitDash.
  rewrite splitDash_three by (by apply allDigits_dashFree).
  simpl. rewrite (Number_digits _ _ Vy), (Number_digits _ _ Vm).
  change (Number "") with (Num 0).
  change (Z.of_N (N.pos p)) with (Z.pos p).
  destruct (dayRel _ _ _); [done | done |].
  unfold showNum. by rewrite pretty_Z_of_nat.
Qed.

End DayKeys.

(** ** The clock time of a message *)

Section ClockTime.
Import MoreSpec Timestamps.

Variable newDate : string -> option LocalTime.

Local Abbreviation formatTimestamp := (Timestamps.formatTimestamp newDate).

Lemma NoDup_fmap_eq {A B} (f : A → B) (l : list A) (x y : A) :
  NoDup (f <$> l) → x ∈ l → y ∈ l → f x = f y → x = y.
Proof.
  induction l as [|a l IH]; intros Hnd Hx Hy Hf.
  - by apply elem_of_nil in Hx.
  - rewrite fmap_cons in Hnd. apply NoDup_cons in Hnd as [Ha Hnd].
    apply elem_of_cons in Hx as [->|Hx]; apply elem_of_cons in Hy as [->|Hy].
    + done.
    + exfalso. apply Ha. rewrite Hf. by apply list_elem_of_fmap_2.
    + exfalso. apply Ha. rewrite <- Hf. by apply list_elem_of_fmap_2.
    + by apply IH.
Qed.

Lemma elem_of_minutesOfDay (h m : nat) :
  h < 24 → m < 60 → (h, m) ∈ minutesOfDay.
Proof.
  intros Hh Hm. unfold minutesOfDay. apply list_elem_of_bind.
  exists h. split.
  - apply list_elem_of_fmap. exists m. split; [done|].
    apply elem_of_seq. lia.
  - apply elem_of_seq. lia.
Qed.

Lemma clockText_NoDup :
  NoDup ((λ hm, clockText hm.1 hm.2) <$> minutesOfDay).
Proof.
  assert (H : bool_decide
    (NoDup ((λ hm, clockText hm.1 hm.2) <$> minutesOfDay)) = true)
    by (by vm_compute).
  by apply bool_decide_eq_true in H.
Qed.

Lemma clockText_inj (h m h' m' : nat) :
  h < 24 → m < 60 → h' < 24 → m' < 60 →
  clockText h m = clockText h' m' → h = h' ∧ m = m'.
Proof.
  intros Hh Hm Hh' Hm' Heq.
  assert ((h, m) = (h', m')) as [= -> ->]; [|done].
  apply (NoDup_fmap_eq (λ hm, clockText hm.1 hm.2) minutesOfDay);
    auto using clockText_NoDup, elem_of_minutesOfDay.
Qed.

(** X4.  The clock time shown for a valid time stamp is the hour on the
    12-hour dial (1 to 12, so midnight and noon both show 12), a colon,
    the minutes as two digits, and AM before noon or PM from noon on; two
    valid time stamps show the same text exactly when they agree in hour
    and minute of the day.  A missing, empty or unparsable time stamp
    shows nothing. *)
Theorem clock_time_identifies_minute (t1 t2 : string) (d1 d2 : LocalTime) :
  truthyStr t1 = true → truthyStr t2 = true →
  newDate t1 = Some d1 → newDate t2 = Some d2 →
  getHours d1 < 24 → getHours d2 < 24 →
  getMinutes d1 < 60 → getMinutes d2 < 60 →
  (formatTimestamp (Some t1) = formatTimestamp (Some t2) ↔ d1 = d2)
  ∧ (∃ h12 mm,
       formatTimestamp (Some t1)
       = pretty h12 +:+ ":" +:+ mm +:+ " "
         +:+ (if getHours d1 <? 12 then "AM" else "PM")
       ∧ 1 ≤ h12 ≤ 12 ∧ h12 mod 12 = getHours d1 mod 12
       ∧ String.length mm = 2
       ∧ MessageList.digitsValue 0 mm = Some (Z.of_nat (getMinutes d1)))
  ∧ formatTimestamp None = ""
  ∧ formatTimestamp (Some "") = ""
  ∧ (∀ t, newDate t = None → formatTimestamp (Some t) = "").
Proof.
  intros Ht1 Ht2 Hd1 Hd2 Hh1 Hh2 Hm1 Hm2.
  assert (Hf : ∀ t d, truthyStr t = true → newDate t = Some d →
    formatTimestamp (Some t) = clockText (getHours d) (getMinutes d)).
  { intros t d Ht Hd. unfold Timestamps.formatTimestamp. by rewrite Ht, Hd. }
  rewrite (Hf t1 d1), (Hf t2 d2) by done.
  split; [|split; [|split; [|split]]].
  - split; [|by intros ->].
    intros Heq. apply clockText_inj in Heq as [Hh Hm]; [|done..].
    destruct d1, d2. simpl in *. by subst.
  - destruct (padStart2_two_digits (getMinutes d1)) as (Lm & _ & Vm); [lia|].
    exists (if getHours d1 mod 12 =? 0 then 12 else getHours d1 mod 12),
      (MessageList.padStart2 (pretty (getMinutes d1))).
    split; [|split; [|split; [|done]]].
    + unfold clockText. do 4 f_equal.
      destruct (12 <=? getHours d1) eqn:E1, (getHours d1 <? 12) eqn:E2;
        try done.
      * apply Nat.leb_le in E1. apply Nat.ltb_lt in E2. lia.
      * apply Nat.leb_gt in E1. apply Nat.ltb_ge in E2. lia.
    + pose proof (Nat.mod_upper_bound (getHours d1) 12 ltac:(lia)).
      destruct (getHours d1 mod 12 =? 0) eqn:E; [lia|].
      apply Nat.eqb_neq in E. lia.
    + destruct (getHours d1 mod 12 =? 0) eqn:E.
      * apply Nat.eqb_eq in E. by rewrite E.
      * by rewrite Nat.Div0.mod_mod.
  - done.
  - done.
  - intros t Hn. unfold Timestamps.formatTimestamp.
    rewrite Hn. by destruct (truthyStr t).
Qed.

End ClockTime.

(** ** The grouping pass: shape of the render list *)

Section GroupingShape.
Import MessageList MoreSpec.

Variable newDate : string -> option LocalDate.
Variable dayRel : jsnum -> jsnum -> jsnum -> DayRel.

Local Abbreviation currentDateString := (MessageList.currentDateString newDate).
Local Abbreviation formatDateDivider := (MessageList.formatDateDivider dayRel).
Local Abbreviation groupMessagesByDate :=
  (MessageList.groupMessagesByDate newDate dayRel).
Local Abbreviation keyBefore := (MessageList.keyBefore newDate).
Local Abbreviation dividerDue := (MessageList.dividerDue newDate).
Local Abbreviation emitted := (MessageList.emitted newDate dayRel).
Local Abbreviation rendered := (MessageList.rendered newDate dayRel).

Lemma groupMessagesByDate_rendered (msgs : list Message) :
  groupMessagesByDate msgs = rendered msgs.
Proof. unfold MessageList.groupMessagesByDate. by rewrite group_loop. Qed.

(** What the pass emits for one message: the message alone, or a divider
    of the message's own day and then the message. *)
Lemma emitted_cases (prev : option string) (i : nat) (m : Message) :
  (dividerDue prev m = false ∧ emitted prev i m = [message m (msg_id m)])
  ∨ ∃ ds,
      dividerDue prev m = true
      ∧ currentDateString m = Some ds
      ∧ emitted prev i m
        = [divider ds (formatDateDivider ds)
             ("divider-" +:+ ds +:+ "-" +:+ pretty i);
           message m (msg_id m)].
Proof.
  unfold MessageList.emitted.
  destruct (dividerDue prev m) eqn:E; [|by left].
  right. unfold MessageList.dividerDue in E.
  apply andb_true_iff in E as [Ht _].
  destruct (currentDateString m) as [ds|]; [|done].
  by exists ds.
Qed.

Lemma dividersLeadTheirDay_join (f : nat → Message → list Item)
    (l : list Message) :
  (∀ i m, f i m = [message m (msg_id m)]
          ∨ ∃ ds lbl k, currentDateString m = Some ds
                        ∧ f i m = [divider ds lbl k; message m (msg_id m)]) →
  dividersLeadTheirDay currentDateString (mjoin (imap f l))
  ∧ length l ≤ length (mjoin (imap f l)) ≤ 2 * length l
  ∧ (l ≠ [] → ∃ m, last (mjoin (imap f l)) = Some (message m (msg_id m))).
Proof.
  revert f. induction l as [|x l IH]; intros f Hf.
  - simpl. split; [done|]. split; [lia | done].
  - rewrite imap_cons. simpl mjoin.
    destruct (IH (f ∘ S)) as (IH1 & IH2 & IH3).
    { intros i m. apply Hf. }
    assert (Hlast : ∃ m, last (message x (msg_id x) :: mjoin (imap (f ∘ S) l))
                         = Some (message m (msg_id m))).
    { destruct l as [|y l']; [by exists x|].
      destruct (IH3 ltac:(done)) as [m Hm]. exists m.
      destruct (mjoin (imap (f ∘ S) (y :: l'))) eqn:E; [done|].
      by rewrite last_cons, Hm. }
    destruct (Hf 0 x) as [-> | (ds & lbl & k & Hk & ->)]; simpl.
    + split; [done|]. split; [lia|]. by intros _.
    + split; [done|]. split; [lia|]. intros _. exact Hlast.
Qed.

(** X5.  In the render list every divider is directly followed by a
    message of the divider's own day; hence no two dividers are adjacent
    and a non-empty list ends with a message.  The list holds every
    message and at most one divider per message; it is empty exactly when
    there are no messages. *)
Theorem dividers_lead_their_day (msgs : list Message) :
  dividersLeadTheirDay currentDateString (groupMessagesByDate msgs)
  ∧ length msgs ≤ length (groupMessagesByDate msgs) ≤ 2 * length msgs
  ∧ (msgs ≠ [] →
     ∃ m, last (groupMessagesByDate msgs) = Some (message m (msg_id m)))
  ∧ (groupMessagesByDate msgs = [] ↔ msgs = []).
Proof.
  rewrite groupMessagesByDate_rendered. unfold MessageList.rendered.
  destruct (dividersLeadTheirDay_join
              (λ i m, emitted (keyBefore msgs i) i m) msgs)
    as (H1 & H2 & H3).
  { intros i m.
    destruct (emitted_cases (keyBefore msgs i) i m)
      as [[_ ->] | (ds & _ & Hk & ->)]; [by left|].
    right. by exists ds, (formatDateDivider ds),
      ("divider-" +:+ ds +:+ "-" +:+ pretty i). }
  split; [done|]. split; [done|]. split; [done|].
  split.
  - intros Heq. rewrite Heq in H2. simpl in H2.
    destruct msgs; [done | simpl in H2; lia].
  - by intros ->.
Qed.

Lemma dashFree_app_dash (a b : string) : dashFree (a +:+ String "-" b) = false.
Proof.
  induction a as [|c a IH]; [done|].
  change (String c a +:+ String "-" b) with (String c (a +:+ String "-" b)).
  simpl. by rewrite IH, andb_false_r.
Qed.

(** The text after the last dash of a key is the index. *)
Lemma after_last_dash (a b p q : string) :
  dashFree p = true → dashFree q = true →
  a +:+ String "-" p = b +:+ String "-" q → a = b ∧ p = q.
Proof.
  intros Hp Hq. revert b. induction a as [|c a IH]; intros [|d b] Heq.
  - by injection Heq.
  - change (String "-" p = String d (b +:+ String "-" q)) in Heq.
    injection Heq as _ ->. by rewrite dashFree_app_dash in Hp.
  - change (String c (a +:+ String "-" p) = String "-" q) in Heq.
    injection Heq as _ <-. by rewrite dashFree_app_dash in Hq.
  - change (String c (a +:+ String "-" p) = String d (b +:+ String "-" q))
      in Heq.
    injection Heq as -> Heq. by destruct (IH b Heq) as [-> ->].
Qed.

Lemma divider_key_inj (ds ds' : string) (i j : nat) :
  "divider-" +:+ ds +:+ "-" +:+ pretty i
  = "divider-" +:+ ds' +:+ "-" +:+ pretty j →
  ds = ds' ∧ i = j.
Proof.
  intros Heq.
  change (String "d" (String "i" (String "v" (String "i" (String "d"
            (String "e" (String "r" (String "-"
               (ds +:+ String "-" (pretty i)))))))))
          = String "d" (String "i" (String "v" (String "i" (String "d"
            (String "e" (String "r" (String "-"
               (ds' +:+ String "-" (pretty j)))))))))) in Heq.
  injection Heq as Heq.
  apply after_last_dash in Heq as [-> Heq].
  - by apply (inj pretty) in Heq as ->.
  - apply allDigits_dashFree, pretty_nat_digits.
  - apply allDigits_dashFree, pretty_nat_digits.
Qed.

Lemma dividerKeys_app (l1 l2 : list Item) :
  dividerKeys (l1 ++ l2) = dividerKeys l1 ++ dividerKeys l2.
Proof. unfold dividerKeys. apply omap_app. Qed.

Lemma dividerKeys_join (g : nat → nat) (p : nat → option string)
    (l : list Message) :
  (∀ i j, g i = g j → i = j) →
  NoDup (dividerKeys (mjoin (imap (λ i m, emitted (p i) (g i) m) l)))
  ∧ ∀ k, k ∈ dividerKeys (mjoin (imap (λ i m, emitted (p i) (g i) m) l)) →
         ∃ ds i, k = "divider-" +:+ ds +:+ "-" +:+ pretty (g i).
Proof.
  revert g p. induction l as [|x l IH]; intros g p Hg.
  - split; [constructor|]. intros k Hk. by apply elem_of_nil in Hk.
  - rewrite imap_cons. simpl mjoin. rewrite dividerKeys_app.
    destruct (IH (g ∘ S) (p ∘ S)) as [IHnd IHin].
    { intros i j Hij. apply Hg in Hij. lia. }
    destruct (emitted_cases (p 0) (g 0) x) as [[_ ->] | (ds & _ & _ & ->)].
    + simpl. split; [done|]. intros k Hk.
      destruct (IHin k Hk) as (ds' & i & ->). by exists ds', (S i).
    + simpl. split.
      * apply NoDup_cons. split; [|done]. intros Hin.
        destruct (IHin _ Hin) as (ds' & i & Heq).
        apply divider_key_inj in Heq as [_ Heq]. apply Hg in Heq. lia.
      * intros k [->|Hk]%elem_of_cons; [by exists ds, 0|].
        destruct (IHin k Hk) as (ds' & i & ->). by exists ds', (S i).
Qed.

(** X6.  The React keys of the dividers of a render list are pairwise
    distinct. *)
Theorem divider_keys_distinct (msgs : list Message) :
  NoDup (dividerKeys (groupMessagesByDate msgs)).
Proof.
  rewrite groupMessagesByDate_rendered. unfold MessageList.rendered.
  by apply (dividerKeys_join id (keyBefore msgs) msgs).
Qed.

Lemma join_singletons {A B} (f : nat → A → list B) (g : A → B) (l : list A) :
  (∀ i x, l !! i = Some x → f i x = [g x]) → mjoin (imap f l) = g <$> l.
Proof.
  revert f. induction l as [|a l IH]; intros f Hf; [done|].
  rewrite imap_cons. simpl. rewrite (Hf 0 a) by done. simpl. f_equal.
  apply IH. intros i x Hi. by apply (Hf (S i)).
Qed.

(** X7.  A run of messages that all fall on one day is rendered as a
    single divider for that day followed by the messages in order. *)
Theorem one_day_one_divider (m : Message) (rest : list Message)
    (ds : string) :
  truthyStr ds = true →
  (∀ x, x ∈ m :: rest → currentDateString x = Some ds) →
  groupMessagesByDate (m :: rest)
  = divider ds (formatDateDivider ds) ("divider-" +:+ ds +:+ "-0")
    :: ((λ x, message x (msg_id x)) <$> (m :: rest)).
Proof.
  intros Hds Hall. rewrite groupMessagesByDate_rendered.
  unfold MessageList.rendered. rewrite imap_cons. simpl mjoin.
  assert (Hm : currentDateString m = Some ds)
    by (apply Hall, list_elem_of_here).
  unfold MessageList.emitted at 1, MessageList.dividerDue. rewrite Hm. simpl.
  rewrite Hds. simpl. do 2 f_equal.
  apply join_singletons. intros i x Hi. simpl.
  assert (Hx : currentDateString x = Some ds).
  { apply Hall, list_elem_of_further, list_elem_of_lookup. eauto. }
  assert (Hprev : (m :: rest) !! i ≫= currentDateString = Some ds).
  { destruct i as [|i]; simpl; [done|].
    destruct (rest !! i) as [y|] eqn:Ey.
    - simpl. apply Hall, list_elem_of_further, list_elem_of_lookup. eauto.
    - apply lookup_ge_None in Ey. apply lookup_lt_Some in Hi. lia. }
  unfold MessageList.emitted, MessageList.dividerDue.
  rewrite Hx, Hprev. simpl. by rewrite bool_decide_true, andb_false_r.
Qed.

End GroupingShape.

(** ** The store: isolation, growth and the New Chat button *)

Section StoreMore.
Import UseChat StoreSpec MoreSpec.

Lemma find_id_app_snoc (id : string) (l : list Conversation)
    (c : Conversation) :
  conv_id c ≠ id →
  find (λ x, bool_decide (conv_id x = id)) (l ++ [c])
  = find (λ x, bool_decide (conv_id x = id)) l.
Proof.
  intros Hne. rewrite find_app_snoc.
  destruct (find _ l); [done|]. by rewrite bool_decide_false.
Qed.

(** X8.  Conversations are isolated: an operation changes neither the
    message sequence nor the title of any conversation other than the one
    it writes to (the new id for [createConversation], the active id for
    [sendMessage], the given id for [clearConversation]). *)
Theorem other_conversations_untouched (op : Op) (st : Store) (id : string) :
  target op ≠ Some id →
  conversationsById (step op st) !! id = conversationsById st !! id
  ∧ titleOf id (step op st) = titleOf id st.
Proof.
  intros Hne.
  destruct op as [active now|active seen userText now iso|active reply iso|cid];
    simpl in *.
  - unfold createConversation.
    destruct (truthy active && _); [done|].
    destruct (find _ (conversations st)); [done|]. simpl.
    assert ("c-" +:+ pretty now ≠ id) by congruence.
    split; [by rewrite lookup_insert_ne|].
    unfold titleOf. simpl. by rewrite find_id_app_snoc.
  - destruct (sendRejected active userText) eqn:Erej; [done|].
    assert (default "" active ≠ id) as Hid.
    { unfold sendRejected in Erej.
      apply orb_false_iff in Erej as [_ Erej]. apply negb_false_iff in Erej.
      destruct active as [a|]; [simpl; congruence | done]. }
    split.
    + simpl. by rewrite lookup_insert_ne.
    + rewrite titleOf_sendMessageBegin, bool_decide_false; [done|].
      intros [? _]. done.
  - assert (active ≠ id) by congruence.
    split; [|apply titleOf_same_conversations; by destruct reply].
    destruct reply; simpl; [by rewrite lookup_insert_ne | done].
  - unfold clearConversation.
    destruct (truthy cid) eqn:Et; simpl; [|done].
    split; [|done].
    destruct cid as [c|]; [|done]. simpl.
    rewrite lookup_insert_ne; [done | congruence].
Qed.

Lemma ids_step (op : Op) (st : Store) :
  ids (step op st) = ids st ∨ ∃ id, ids (step op st) = ids st ++ [id].
Proof.
  destruct op as [active now|active seen userText now iso|active reply iso|cid];
    simpl.
  - unfold createConversation.
    destruct (truthy active && _); [by left|].
    destruct (find _ (conversations st)); [by left|].
    right. exists ("c-" +:+ pretty now). unfold ids. simpl.
    by rewrite fmap_app.
  - left. destruct (sendRejected active userText); [done|].
    apply ids_sendMessageBegin.
  - left. by destruct reply.
  - left. unfold clearConversation. by destruct (negb (truthy cid)).
Qed.

Lemma messagesOf_step_exchange (op : Op) (st : Store) (id : string) :
  isExchange op = true →
  messagesOf (conversationsById st) id
  `prefix_of` messagesOf (conversationsById (step op st)) id.
Proof.
  destruct op as [active now|active seen userText now iso|active reply iso|cid];
    simpl; try done; intros _.
  - destruct (sendRejected active userText); [done|]. simpl.
    destruct (decide (default "" active = id)) as [<-|Hne].
    + rewrite messagesOf_insert. by apply prefix_app_r.
    + unfold messagesOf. by rewrite lookup_insert_ne.
  - destruct reply as [m|err]; simpl; [|done].
    destruct (decide (active = id)) as [<-|Hne].
    + rewrite messagesOf_insert. by apply prefix_app_r.
    + unfold messagesOf. by rewrite lookup_insert_ne.
Qed.

(** X9.  No run of operations removes or reorders a conversation: the
    list of ids before a run is a prefix of the list after it.  Message
    sequences are append-only under [sendMessage]: along a run of
    exchange steps the sequence of every conversation is a prefix of what
    it becomes. *)
Theorem conversations_only_grow (ops : list Op) (st : Store) :
  ids st `prefix_of` ids (run ops st)
  ∧ (forallb isExchange ops = true →
     ∀ id, messagesOf (conversationsById st) id
           `prefix_of` messagesOf (conversationsById (run ops st)) id).
Proof.
  split.
  - revert st. induction ops as [|op ops IH]; intros st; [done|].
    simpl. etrans; [|apply IH].
    destruct (ids_step op st) as [-> | [id ->]]; [done|].
    by apply prefix_app_r.
  - revert st. induction ops as [|op ops IH]; intros st Hex id; [done|].
    simpl in *. apply andb_true_iff in Hex as [Hop Hex].
    etrans; [|by apply IH]. by apply messagesOf_step_exchange.
Qed.

Lemma emptyConversations_after_create (st : Store) (now : Z) :
  emptyConversations
    {| conversations :=
         conversations st
         ++ [{| conv_id := "c-" +:+ pretty now; title := "New conversation" |}];
       conversationsById := <["c-" +:+ pretty now := []]> (conversationsById st);
       isLoading := isLoading st;
       error := error st |} ≠ [].
Proof.
  unfold emptyConversations. simpl. rewrite filter_app, filter_cons. simpl.
  rewrite decide_True by apply messagesOf_insert.
  by destruct (filter _ (conversations st)).
Qed.

(** X17.  A run of [createConversation()] calls, from any store, adds at
    most one conversation: once one has been added it is empty, and every
    later call returns without adding another. *)
Theorem createConversation_adds_at_most_one
    (calls : list (option string * Z)) (st : Store) :
  Forall (λ st', conversations st' = conversations st
                 ∨ ∃ c, conversations st' = conversations st ++ [c]
                        ∧ title c = "New conversation"
                        ∧ messagesOf (conversationsById st') (conv_id c) = [])
         (createTrace st calls).
Proof.
  revert st. induction calls as [|[active now] rest IH]; intros st; simpl.
  - constructor; [by left | constructor].
  - constructor; [by left|].
    unfold createConversation.
    destruct (truthy active && _); [apply IH|].
    destruct (find _ (conversations st)); [apply IH|]. simpl.
    eapply Forall_impl.
    + apply createTrace_keeps_store, emptyConversations_after_create.
    + intros st' ->. right. eexists. split; [done|]. split; [done|].
      simpl. apply messagesOf_insert.
Qed.

End StoreMore.

(** ** The composer, the Clear button and the titles *)

Section Composer.
Import UseChat StoreSpec MoreSpec.

Lemma trimStart_fixed (s : string) : startsWhite s = false → trimStart s = s.
Proof.
  destruct s as [|a [|b [|c r]]]; simpl; try done.
  - destruct (isSpace a); simpl; by intros.
  - destruct (isSpace a), (isSpace2 a b); simpl; by intros.
  - destruct (isSpace a), (isSpace2 a b), (isSpace3 a b c); simpl; by intros.
Qed.

Lemma startsWhite_trimStart (s : string) : startsWhite (trimStart s) = false.
Proof.
  remember (String.length s) as n eqn:Hn.
  assert (Hle : String.length s ≤ n) by lia. clear Hn.
  revert s Hle. induction n as [|n IH]; intros s Hle.
  - destruct s; [done | simpl in Hle; lia].
  - destruct s as [|a r1]; [done|]. simpl in Hle.
    simpl. destruct (isSpace a) eqn:Ea; [apply IH; lia|].
    destruct r1 as [|b r2]; [by simpl; rewrite Ea|]. simpl in Hle.
    destruct (isSpace2 a b) eqn:Eb; [apply IH; lia|].
    destruct r2 as [|c r3]; [by simpl; rewrite Ea, Eb|]. simpl in Hle.
    destruct (isSpace3 a b c) eqn:Ec; [apply IH; lia|].
    simpl. by rewrite Ea, Eb, Ec.
Qed.

Lemma startsWhite_app (u q : string) :
  startsWhite u = true → startsWhite (u +:+ q) = true.
Proof.
  destruct u as [|a [|b [|c r]]]; simpl; try done.
  - destruct (isSpace a); simpl; by intros.
  - destruct (isSpace a), (isSpace2 a b); simpl; by intros.
Qed.

Lemma trimEnd_cons (c : ascii) (r : string) :
  trimEnd (String c r)
  = if isWhite (String c (trimEnd r)) then "" else String c (trimEnd r).
Proof. done. Qed.

(** What [trimEnd] leaves is the beginning of the text. *)
Lemma trimEnd_prefix (s : string) : ∃ q, s = trimEnd s +:+ q.
Proof.
  induction s as [|c r [q Hq]]; [by exists ""|]. rewrite trimEnd_cons.
  destruct (isWhite (String c (trimEnd r))).
  - exists (String c r). reflexivity.
  - exists q. change (String c r = String c (trimEnd r +:+ q)).
    by rewrite <- Hq.
Qed.

Lemma trimEnd_idem (s : string) : trimEnd (trimEnd s) = trimEnd s.
Proof.
  induction s as [|c r IH]; [done|]. rewrite trimEnd_cons.
  destruct (isWhite (String c (trimEnd r))) eqn:E; [done|].
  by rewrite trimEnd_cons, IH, E.
Qed.

(** Trimming twice is trimming once. *)
Lemma trim_idem (s : string) : trim (trim s) = trim s.
Proof.
  unfold trim.
  destruct (trimEnd_prefix (trimStart s)) as [q Hq].
  rewrite (trimStart_fixed (trimEnd (trimStart s))); [apply trimEnd_idem|].
  destruct (startsWhite (trimEnd (trimStart s))) eqn:E; [|done].
  apply (startsWhite_app _ q) in E. rewrite <- Hq in E.
  by rewrite startsWhite_trimStart in E.
Qed.

(** For instance, a no-break space (U+00A0) before a text and an
    ideographic space (U+3000) after it are stripped, a zero width space
    (U+200B) is not, and a text of white space alone does not pass the
    guard of [sendMessage]. *)
Lemma trim_strips_unicode_space :
  trim (String "194" (String "160"
          ("hi" +:+ String "227" (String "128" (String "128" "")))))
  = "hi"
  ∧ trim (String "226" (String "128" (String "139" "")))
    = String "226" (String "128" (String "139" ""))
  ∧ sendRejected (Some "c1") (String "194" (String "160" " ")) = true.
Proof. by vm_compute. Qed.

(** X11.  The composer and the store agree.  The Send button is enabled
    exactly when submitting sends, and the plain Enter key does what
    submitting does, while Shift+Enter and every other key send nothing
    and keep the text.  What is sent is the trimmed text, which is not
    empty, and the text box is emptied; with a conversation active
    [sendMessage] accepts that text and stores it as it is.  A disabled
    composer never sends. *)
Theorem composer_sends_what_store_accepts (disabled : bool) (text : string) :
  (MessageInput.sendDisabled disabled text = false
   ↔ is_Some (MessageInput.sent (MessageInput.handleSubmit disabled text)))
  ∧ (∀ ev, MessageInput.key ev = "Enter" → MessageInput.shiftKey ev = false →
       MessageInput.handleKeyDown ev disabled text
       = MessageInput.handleSubmit disabled text)
  ∧ (∀ ev, MessageInput.key ev ≠ "Enter" ∨ MessageInput.shiftKey ev = true →
       MessageInput.handleKeyDown ev disabled text
       = {| MessageInput.sent := None; MessageInput.text := text;
            MessageInput.defaultPrevented := false |})
  ∧ (∀ t, MessageInput.sent (MessageInput.handleSubmit disabled text) = Some t →
       t = trim text ∧ t ≠ "" ∧ disabled = false
       ∧ MessageInput.text (MessageInput.handleSubmit disabled text) = ""
       ∧ ∀ active now iso,
           truthy active = true →
           sendRejected active t = false
           ∧ content (userMessage t now iso) = t)
  ∧ (disabled = true →
     MessageInput.handleSubmit disabled text
     = {| MessageInput.sent := None; MessageInput.text := text;
          MessageInput.defaultPrevented := true |}).
Proof.
  unfold MessageInput.sendDisabled, MessageInput.handleSubmit,
    MessageInput.handleKeyDown.
  split; [|split; [|split; [|split]]].
  - destruct disabled, (truthyStr (trim text)); simpl; split;
      try done; try (by intros [? [=]]); by eauto.
  - intros ev -> ->. simpl.
    by destruct disabled, (truthyStr (trim text)).
  - intros ev [Hk | Hs].
    + by rewrite !bool_decide_false, andb_false_r by done.
    + rewrite Hs. simpl. rewrite andb_false_r. by case_bool_decide.
  - intros t. destruct (truthyStr (trim text)) eqn:Et, disabled; simpl;
      try done.
    intros [= <-]. split; [done|].
    split; [by apply truthyStr_true|]. split; [done|]. split; [done|].
    intros active now iso Ha. split.
    + unfold sendRejected. by rewrite trim_idem, Et, Ha.
    + simpl. apply trim_idem.
  - intros ->. by rewrite orb_true_r.
Qed.

(** X12.  The Clear Chat button is shown exactly when a conversation is
    selected and shows messages.  Pressing it empties the message
    sequence of the selected conversation, leaves the metadata list with
    every title as it was, and hides the button; clearing again changes
    nothing. *)
Theorem clear_chat_button (selected : option string) (st : Store) :
  (ChatWindow.showClearButton (App.onClearChat selected)
     (activeMessages selected (conversationsById st)) = true
   ↔ truthy selected = true
     ∧ activeMessages selected (conversationsById st) ≠ [])
  ∧ ∀ clear, App.onClearChat selected = Some clear →
      activeMessages selected (conversationsById (clear st)) = []
      ∧ conversations (clear st) = conversations st
      ∧ ChatWindow.showClearButton (App.onClearChat selected)
          (activeMessages selected (conversationsById (clear st))) = false
      ∧ clear (clear st) = clear st.
Proof.
  unfold App.onClearChat, ChatWindow.showClearButton.
  destruct (truthy selected) eqn:Et.
  - split.
    + rewrite Nat.ltb_lt.
      destruct (activeMessages selected (conversationsById st)); simpl;
        split; try done; try lia. by intros [_ ?].
    + intros clear [= <-]. unfold clearConversation. rewrite Et. simpl.
      unfold activeMessages. rewrite Et. simpl.
      rewrite messagesOf_insert. repeat split; try done.
      by rewrite insert_insert_eq.
  - split; [|done]. split; [done | by intros [? _]].
Qed.

Lemma pretty_nat_head_digit (n : nat) :
  ∃ c r, pretty n = String c r ∧ MessageList.isDigit c = true.
Proof.
  destruct (pretty_nat_digits n) as [Hd _].
  destruct (pretty_nat_no_N n) as [Hne _].
  destruct (pretty n) as [|c r]; [done|]. simpl in Hd.
  apply andb_true_iff in Hd as [Hc _]. by exists c, r.
Qed.

Lemma newTitle_beyond_table (n : nat) :
  10 ≤ n → newTitle n = pretty (n + 1) +:+ "th conversation".
Proof.
  intros Hn. rewrite newTitle_ordinalName.
  do 10 (destruct n as [|n]; [lia|]). unfold ordinalName.
  by rewrite string_app_assoc.
Qed.

Lemma newTitle_table_NoDup : NoDup (newTitle <$> seq 0 10).
Proof.
  assert (H : bool_decide (NoDup (newTitle <$> seq 0 10)) = true)
    by (by vm_compute).
  by apply bool_decide_eq_true in H.
Qed.

Lemma newTitle_table_head (n : nat) :
  n < 10 → ∃ c r, newTitle n = String c r ∧ MessageList.isDigit c = false.
Proof.
  intros Hn. do 10 (destruct n as [|n]; [by eexists _, _|]). lia.
Qed.

Lemma newTitle_inj (n m : nat) : newTitle n = newTitle m → n = m.
Proof.
  intros Heq.
  destruct (decide (n < 10)) as [Hn|Hn], (decide (m < 10)) as [Hm|Hm].
  - apply (NoDup_fmap_eq newTitle (seq 0 10)); [apply newTitle_table_NoDup | | |done];
      apply elem_of_seq; lia.
  - exfalso. destruct (newTitle_table_head n Hn) as (c & r & Hc & Hd).
    rewrite (newTitle_beyond_table m) in Heq by lia.
    destruct (pretty_nat_head_digit (m + 1)) as (c' & r' & Hp & Hd').
    rewrite Hc, Hp in Heq. injection Heq as -> _. congruence.
  - exfalso. destruct (newTitle_table_head m Hm) as (c & r & Hc & Hd).
    rewrite (newTitle_beyond_table n) in Heq by lia.
    destruct (pretty_nat_head_digit (n + 1)) as (c' & r' & Hp & Hd').
    rewrite Hc, Hp in Heq. injection Heq as -> _. congruence.
  - rewrite !newTitle_beyond_table in Heq by lia.
    apply string_app_inj_tail in Heq as [Heq _]; [|done].
    apply (inj pretty) in Heq. lia.
Qed.

(** X13.  The automatic titles never collide: different counts of
    conversations in use give different titles. *)
Theorem titles_never_collide (n m : nat) : n ≠ m → newTitle n ≠ newTitle m.
Proof. intros Hne Heq. by apply Hne, newTitle_inj. Qed.

End Composer.

(** ** Mounting: hydrate, the first write and the selected conversation *)

Section Mounting.
Import Persistence.

Variable JSON_parse : string -> option JSON.
Variable JSON_stringify : JSON -> string.

Local Abbreviation hydrate := (Persistence.hydrate JSON_parse).
Local Abbreviation persistOnRender :=
  (Persistence.persistOnRender JSON_stringify).
Local Abbreviation storedSnapshot := (Persistence.storedSnapshot JSON_parse).


End Mounting.

Section Selection.
Import App.

Lemma existsb_conv_id (id : string) (l : list Conversation) :
  existsb (λ c, bool_decide (conv_id c = id)) l = true ↔ id ∈ conv_id <$> l.
Proof.
  rewrite existsb_exists, list_elem_of_fmap. split.
  - intros (c & Hin & Hc). apply bool_decide_eq_true in Hc.
    exists c. split; [done | by apply list_elem_of_In].
  - intros (c & -> & Hin). exists c.
    split; [by apply list_elem_of_In | by apply bool_decide_eq_true].
Qed.

(** X15.  The stored active id is not restored on mount.  In the first
    commit the restore effect may ask for the stored id, but the effect
    that follows it sees nothing selected and asks for the first seed
    conversation, and the last call wins: [c1] is selected whatever is
    stored.  The same commit removes the stored id (if the storage
    works): run on the storage that commit leaves, the restore effect
    asks for nothing, whatever the list of conversations. *)
Theorem first_commit_selects_first_seed (readOk writeOk : bool)
    (ls : LocalStorage) :
  (firstCommit readOk writeOk ls).1 = Some "c1"
  ∧ (writeOk = true →
     (firstCommit readOk writeOk ls).2 = delete ACTIVE_ID_STORAGE_KEY ls
     ∧ ∀ readOk' conversations,
         restoreEffect readOk' (firstCommit readOk writeOk ls).2 conversations
         = None).
Proof.
  split.
  - unfold firstCommit, afterCalls. simpl.
    by destruct (restoreEffect readOk ls UseChat.seedConversations).
  - intros ->. split; [done|]. intros readOk' conversations.
    unfold firstCommit, persistActiveEffect, restoreEffect, getItem. simpl.
    destruct readOk'; simpl; [|done]. by rewrite lookup_delete_eq.
Qed.

(** X16.  Storing and restoring the active id: once the persist effect
    has stored a selected id, the restore effect asks for that id exactly
    when it is the id of a conversation of the list; it never asks for an
    id that is not in the list, and after the persist effect has run with
    nothing selected it asks for nothing. *)
Theorem active_id_round_trip (id : string) (ls : LocalStorage)
    (conversations : list Conversation) :
  truthyStr id = true →
  (id ∈ conv_id <$> conversations →
   restoreEffect true (persistActiveEffect true (Some id) ls) conversations
   = Some id)
  ∧ (id ∉ conv_id <$> conversations →
     restoreEffect true (persistActiveEffect true (Some id) ls) conversations
     = None)
  ∧ (∀ readOk ls' id', restoreEffect readOk ls' conversations = Some id' →
       id' ∈ conv_id <$> conversations)
  ∧ restoreEffect true (persistActiveEffect true None ls) conversations = None.
Proof.
  intros Ht.
  assert (Hstored : restoreEffect true
                      (persistActiveEffect true (Some id) ls) conversations
                    = if existsb (λ c, bool_decide (conv_id c = id)) conversations
                      then Some id else None).
  { unfold restoreEffect, persistActiveEffect, getItem. simpl. rewrite Ht.
    simpl. rewrite lookup_insert_eq. simpl. rewrite Ht. simpl.
    by destruct (existsb _ conversations). }
  split; [|split; [|split]].
  - intros Hin. apply existsb_conv_id in Hin. by rewrite Hstored, Hin.
  - intros Hnin. rewrite Hstored.
    destruct (existsb _ conversations) eqn:E; [|done].
    by apply existsb_conv_id in E.
  - intros readOk ls' id'. unfold restoreEffect, getItem.
    destruct readOk; simpl; [|done].
    destruct (ls' !! ACTIVE_ID_STORAGE_KEY) as [s|]; simpl; [|done].
    destruct (truthyStr s); simpl; [|done].
    destruct (existsb (λ c, bool_decide (conv_id c = s)) conversations)
      eqn:E; simpl; [|done].
    intros [= <-]. by apply existsb_conv_id.
  - unfold restoreEffect, persistActiveEffect, getItem. simpl.
    by rewrite lookup_delete_eq.
Qed.

(** In a list without an empty conversation every listed id has
    messages. *)
Lemma listed_id_has_messages (st : UseChat.Store) (id : string) :
  StoreSpec.emptyConversations st = [] → id ∈ StoreSpec.ids st →
  UseChat.messagesOf (UseChat.conversationsById st) id ≠ [].
Proof.
  intros Hempty Hin Hm. unfold StoreSpec.ids in Hin.
  apply list_elem_of_fmap in Hin as (c & -> & Hc).
  assert (c ∈ StoreSpec.emptyConversations st) as Hf.
  { unfold StoreSpec.emptyConversations. by apply list_elem_of_filter. }
  rewrite Hempty in Hf. by apply elem_of_nil in Hf.
Qed.

Lemma restoreEffect_stored (ls : LocalStorage) (id : string)
    (conversations : list Conversation) :
  ls !! ACTIVE_ID_STORAGE_KEY = Some id → truthyStr id = true →
  id ∈ conv_id <$> conversations →
  restoreEffect true ls conversations = Some id.
Proof.
  intros Hls Ht Hin. unfold restoreEffect, getItem. simpl.
  rewrite Hls. simpl. rewrite Ht. simpl.
  apply existsb_conv_id in Hin. by rewrite Hin.
Qed.

(** X10.  The New Chat button needs two clicks when it adds a
    conversation.  With a listed conversation selected and stored as the
    active one, and no empty conversation in the list,
    [handleNewConversation] appends a conversation and selects it; but
    the list has grown, so the restore effect of that commit runs, finds
    the stored id and selects the previous conversation again (unless the
    storage cannot be read), and the next commit stores that id again
    (the storage accepting writes).
    A second click then adds nothing, selects the conversation the first
    click added, which shows no messages, and this time the selection
    stays. *)
Theorem new_chat_needs_two_clicks (readOk : bool) (prev : string)
    (now now' : Z) (st : UseChat.Store) (ls : LocalStorage) :
  truthyStr prev = true → prev ∈ StoreSpec.ids st →
  StoreSpec.emptyConversations st = [] →
  "c-" +:+ pretty now ∉ StoreSpec.ids st →
  ls !! ACTIVE_ID_STORAGE_KEY = Some prev →
  let newId := "c-" +:+ pretty now in
  let list0 := UseChat.conversations st in
  let r := handleNewConversation (Some prev) now st in
  let list1 := UseChat.conversations r.2 in
  let c1 := laterCommit readOk true (Some prev) list0 false r.1 list1 ls in
  let c2 := laterCommit readOk true r.1 list1 true c1.1 list1 c1.2 in
  let r' := handleNewConversation c2.1 now' r.2 in
  let c3 := laterCommit readOk true c2.1 list1 true r'.1 list1 c2.2 in
  (r.1 = Some newId
   ∧ list1 = list0 ++ [{| conv_id := newId; title := "New conversation" |}])
  ∧ c1.1 = (if readOk then Some prev else Some newId)
  ∧ c1.2 !! ACTIVE_ID_STORAGE_KEY = Some newId
  ∧ (readOk = true →
     c2 = (Some prev, <[ACTIVE_ID_STORAGE_KEY := prev]> ls)
     ∧ r' = (Some newId, r.2)
     ∧ c3 = (Some newId, <[ACTIVE_ID_STORAGE_KEY := newId]> ls)
     ∧ UseChat.activeMessages c3.1 (UseChat.conversationsById r'.2) = []).
Proof.
  intros Ht Hin Hempty Hfresh Hls newId list0 r list1.
  assert (Hne : prev ≠ newId) by (intros ->; done).
  assert (Hmsgs : UseChat.messagesOf (UseChat.conversationsById st) prev ≠ [])
    by by apply listed_id_has_messages.
  assert (Hr : r = (Some newId,
    {| UseChat.conversations :=
         list0 ++ [{| conv_id := newId; title := "New conversation" |}];
       UseChat.conversationsById :=
         <[newId := []]> (UseChat.conversationsById st);
       UseChat.isLoading := UseChat.isLoading st;
       UseChat.error := UseChat.error st |})).
  { unfold r, handleNewConversation, UseChat.createConversation.
    rewrite find_empty_conversation, Hempty. simpl.
    unfold UseChat.activeMessages. simpl. rewrite Ht.
    destruct (UseChat.messagesOf (UseChat.conversationsById st) prev);
      [done|]. done. }
  assert (Hl1 : list1
    = list0 ++ [{| conv_id := newId; title := "New conversation" |}]).
  { unfold list1. by rewrite Hr. }
  assert (Hlen : (length list0 =? length list1) = false).
  { rewrite Hl1, length_app. simpl. apply Nat.eqb_neq. lia. }
  assert (Hin1 : prev ∈ conv_id <$> list1).
  { rewrite Hl1, fmap_app. apply elem_of_app. by left. }
  assert (Hpn : bool_decide (Some prev = Some newId) = false).
  { apply bool_decide_eq_false. congruence. }
  assert (Hnp : bool_decide (Some newId = Some prev) = false).
  { apply bool_decide_eq_false. congruence. }
  assert (Hc1 : laterCommit readOk true (Some prev) list0 false r.1 list1 ls
    = (if readOk then Some prev else Some newId,
       <[ACTIVE_ID_STORAGE_KEY := newId]> ls)).
  { rewrite Hr. simpl. unfold laterCommit. rewrite Hlen, Hpn. simpl.
    unfold defaultEffect, persistActiveEffect. simpl.
    destruct readOk; [|done].
    by rewrite (restoreEffect_stored ls prev list1). }
  intros c1 c2 r' c3.
  split; [by rewrite Hr|]. split; [unfold c1; by rewrite Hc1|].
  split; [unfold c1; rewrite Hc1; simpl; by rewrite lookup_insert_eq|].
  intros ->.
  assert (Hc2 : c2 = (Some prev, <[ACTIVE_ID_STORAGE_KEY := prev]> ls)).
  { unfold c2, c1. rewrite Hc1, Hr. simpl. unfold laterCommit.
    rewrite Nat.eqb_refl, Hnp. simpl.
    unfold defaultEffect, persistActiveEffect. simpl. rewrite Ht. simpl.
    rewrite insert_insert_eq. by destruct (_ && false). }
  assert (Hr' : r' = (Some newId, r.2)).
  { unfold r'. rewrite Hc2, Hr. simpl.
    unfold handleNewConversation, UseChat.createConversation. simpl.
    unfold UseChat.activeMessages. simpl. rewrite Ht.
    replace (UseChat.messagesOf
               (<[newId := []]> (UseChat.conversationsById st)) prev)
      with (UseChat.messagesOf (UseChat.conversationsById st) prev)
      by (unfold UseChat.messagesOf; by rewrite lookup_insert_ne).
    destruct (UseChat.messagesOf (UseChat.conversationsById st) prev)
      as [|m ms] eqn:Em; [done|]. simpl.
    rewrite find_app_snoc.
    replace (find _ list0) with (@None Conversation).
    - simpl. by rewrite messagesOf_insert.
    - symmetry. apply find_none_forall. intros c Hc.
      assert (Hcid : conv_id c ∈ StoreSpec.ids st).
      { unfold StoreSpec.ids. by apply list_elem_of_fmap_2. }
      assert (conv_id c ≠ newId) by (intros Heq; by rewrite Heq in Hcid).
      unfold UseChat.messagesOf at 1. rewrite lookup_insert_ne by done.
      pose proof (listed_id_has_messages st _ Hempty Hcid) as Hc'.
      unfold UseChat.messagesOf in Hc'.
      by destruct (default [] (UseChat.conversationsById st !! conv_id c)). }
  split; [exact Hc2|]. split; [exact Hr'|].
  assert (Hc3 : c3 = (Some newId, <[ACTIVE_ID_STORAGE_KEY := newId]> ls)).
  { unfold c3. rewrite Hr', Hc2. simpl. unfold laterCommit.
    rewrite Nat.eqb_refl, Hpn. simpl.
    unfold defaultEffect, persistActiveEffect. simpl.
    rewrite insert_insert_eq. by destruct (_ && false). }
  split; [exact Hc3|].
  rewrite Hc3, Hr', Hr. simpl. unfold UseChat.activeMessages. simpl.
  by rewrite messagesOf_insert.
Qed.

End Selection.

(** ** The further properties at sample inputs *)

Lemma bucket_key_identifies_day_witness :
  let morning := "2025-01-18T08:15:00" in
  let night := "2025-01-18T23:59:59" in
  let day := {| MessageList.getFullYear := 2025; MessageList.getMonth := 0;
                MessageList.getDate := 18 |} in
  (SamplePlatform.newDate morning = Some day
   ∧ SamplePlatform.newDate night = Some day)
  ∧ MessageList.getDateString SamplePlatform.newDate (Some morning)
    = MessageList.getDateString SamplePlatform.newDate (Some night)
  ∧ MessageList.getDateString SamplePlatform.newDate (Some morning) ≠ "".
Proof.
  assert (H1 : SamplePlatform.newDate "2025-01-18T08:15:00"
               = Some {| MessageList.getFullYear := 2025;
                         MessageList.getMonth := 0;
                         MessageList.getDate := 18 |}) by (by vm_compute).
  assert (H2 : SamplePlatform.newDate "2025-01-18T23:59:59"
               = Some {| MessageList.getFullYear := 2025;
                         MessageList.getMonth := 0;
                         MessageList.getDate := 18 |}) by (by vm_compute).
  split; [by split|].
  destruct (bucket_key_identifies_day SamplePlatform.newDate
              "2025-01-18T08:15:00" "2025-01-18T23:59:59" _ _
              eq_refl eq_refl H1 H2 ltac:(simpl; lia) ltac:(simpl; lia)
              ltac:(simpl; lia) ltac:(simpl; lia))
    as (Hiff & Hne & _).
  split; [by apply Hiff | exact Hne].
Defined.

Lemma divider_label_of_bucket_key_witness :
  let t := "2024-12-05T09:00:00" in
  (truthyStr t = true
   ∧ SamplePlatform.newDate t
     = Some {| MessageList.getFullYear := 2024; MessageList.getMonth := 11;
               MessageList.getDate := 5 |})
  ∧ MessageList.formatDateDivider SamplePlatform.dayRel
      (MessageList.getDateString SamplePlatform.newDate (Some t))
    = "Dec 5, 2024".
Proof.
  assert (H1 : SamplePlatform.newDate "2024-12-05T09:00:00"
               = Some {| MessageList.getFullYear := 2024;
                         MessageList.getMonth := 11;
                         MessageList.getDate := 5 |}) by (by vm_compute).
  split; [by split|].
  exact (divider_label_of_bucket_key SamplePlatform.newDate
           SamplePlatform.dayRel "2024-12-05T09:00:00" _ eq_refl H1 ltac:(simpl; lia)
           ltac:(simpl; lia) ltac:(simpl; lia)).
Defined.

Lemma divider_label_negative_year_witness :
  (MessageList.getDateString SampleMore.idesOfMarch (Some "x") = "-43-03-15")
  ∧ MessageList.formatDateDivider SamplePlatform.dayRel
      (MessageList.getDateString SampleMore.idesOfMarch (Some "x"))
    = "undefined 3, 0".
Proof.
  split; [by vm_compute|].
  exact (divider_label_negative_year SampleMore.idesOfMarch
           SamplePlatform.dayRel "x" _ eq_refl eq_refl ltac:(simpl; lia)
           ltac:(simpl; lia) ltac:(simpl; lia)).
Defined.

Lemma clock_time_identifies_minute_witness :
  let midnight := {| Timestamps.getHours := 0; Timestamps.getMinutes := 5 |} in
  let noon := {| Timestamps.getHours := 12; Timestamps.getMinutes := 5 |} in
  (SampleMore.newTime "2025-01-18T00:05:00" = Some midnight
   ∧ SampleMore.newTime "2025-01-18T12:05:00" = Some noon)
  ∧ Timestamps.formatTimestamp SampleMore.newTime (Some "2025-01-18T00:05:00")
    = "12:05 AM"
  ∧ Timestamps.formatTimestamp SampleMore.newTime (Some "2025-01-18T12:05:00")
    = "12:05 PM"
  ∧ Timestamps.formatTimestamp SampleMore.newTime (Some "2025-01-18T00:05:00")
    ≠ Timestamps.formatTimestamp SampleMore.newTime
        (Some "2025-01-18T12:05:00").
Proof.
  assert (H1 : SampleMore.newTime "2025-01-18T00:05:00"
               = Some {| Timestamps.getHours := 0;
                         Timestamps.getMinutes := 5 |}) by (by vm_compute).
  assert (H2 : SampleMore.newTime "2025-01-18T12:05:00"
               = Some {| Timestamps.getHours := 12;
                         Timestamps.getMinutes := 5 |}) by (by vm_compute).
  split; [by split|]. split; [by vm_compute|]. split; [by vm_compute|].
  destruct (clock_time_identifies_minute SampleMore.newTime
              "2025-01-18T00:05:00" "2025-01-18T12:05:00" _ _
              eq_refl eq_refl H1 H2 ltac:(simpl; lia) ltac:(simpl; lia)
              ltac:(simpl; lia) ltac:(simpl; lia))
    as (Hiff & _).
  intros Heq. apply Hiff in Heq. discriminate Heq.
Defined.

Lemma one_day_one_divider_witness :
  (truthyStr "2025-01-18" = true
   ∧ ∀ x, x ∈ SampleMore.oneDay →
       MessageList.currentDateString SamplePlatform.newDate x
       = Some "2025-01-18")
  ∧ length (MessageList.groupMessagesByDate SamplePlatform.newDate
              SamplePlatform.dayRel SampleMore.oneDay) = 4.
Proof.
  assert (Hall : ∀ x, x ∈ SampleMore.oneDay →
    MessageList.currentDateString SamplePlatform.newDate x
    = Some "2025-01-18").
  { intros x Hx. unfold SampleMore.oneDay in Hx.
    rewrite !elem_of_cons, elem_of_nil in Hx.
    destruct Hx as [-> | [-> | [-> | []]]]; by vm_compute. }
  split; [split; [done | exact Hall]|].
  unfold SampleMore.oneDay.
  by rewrite (one_day_one_divider SamplePlatform.newDate SamplePlatform.dayRel
                _ _ "2025-01-18" eq_refl Hall).
Defined.

Lemma other_conversations_untouched_witness :
  let op := StoreSpec.Clear (Some "c1") in
  MoreSpec.target op ≠ Some "c2"
  ∧ UseChat.conversationsById (StoreSpec.step op threeConversations) !! "c2"
    = UseChat.conversationsById threeConversations !! "c2"
  ∧ StoreSpec.titleOf "c2" (StoreSpec.step op threeConversations)
    = StoreSpec.titleOf "c2" threeConversations.
Proof.
  assert (H : MoreSpec.target (StoreSpec.Clear (Some "c1")) ≠ Some "c2")
    by discriminate.
  split; [exact H|].
  exact (other_conversations_untouched (StoreSpec.Clear (Some "c1"))
           threeConversations "c2" H).
Defined.

Lemma titles_never_collide_witness :
  9 ≠ 10 ∧ UseChat.newTitle 9 ≠ UseChat.newTitle 10.
Proof.
  assert (H : 9 ≠ 10) by lia.
  split; [exact H | exact (titles_never_collide 9 10 H)].
Defined.


Lemma active_id_round_trip_witness :
  (truthyStr "c2" = true ∧ "c2" ∈ conv_id <$> UseChat.seedConversations)
  ∧ App.restoreEffect true (App.persistActiveEffect true (Some "c2") ∅)
      UseChat.seedConversations
    = Some "c2".
Proof.
  assert (Hin : "c2" ∈ conv_id <$> UseChat.seedConversations).
  { simpl. apply list_elem_of_further, list_elem_of_here. }
  split; [split; [done | exact Hin]|].
  destruct (active_id_round_trip "c2" ∅ UseChat.seedConversations eq_refl)
    as (Hyes & _).
  exact (Hyes Hin).
Defined.

Lemma new_chat_needs_two_clicks_witness :
  let prev := "c-1734517800000" in
  let newId := "c-1734517900000" in
  let ls : LocalStorage := App.persistActiveEffect true (Some prev) ∅ in
  let r := App.handleNewConversation (Some prev) 1734517900000 usedStore in
  let list1 := UseChat.conversations r.2 in
  let c1 :=
    App.laterCommit true true (Some prev) (UseChat.conversations usedStore)
      false r.1 list1 ls in
  let c2 := App.laterCommit true true r.1 list1 true c1.1 list1 c1.2 in
  let r' := App.handleNewConversation c2.1 1734517960000 r.2 in
  (truthyStr prev = true ∧ prev ∈ StoreSpec.ids usedStore
   ∧ StoreSpec.emptyConversations usedStore = []
   ∧ (newId ∉ StoreSpec.ids usedStore)
   ∧ ls !! App.ACTIVE_ID_STORAGE_KEY = Some prev)
  ∧ r.1 = Some newId
  ∧ c1.1 = Some prev
  ∧ c2.1 = Some prev
  ∧ r' = (Some newId, r.2).
Proof.
  intros prev newId ls r list1 c1 c2 r'.
  assert (H1 : truthyStr prev = true) by (by vm_compute).
  assert (H2 : prev ∈ StoreSpec.ids usedStore) by apply list_elem_of_here.
  assert (H3 : StoreSpec.emptyConversations usedStore = [])
    by (by vm_compute).
  assert (H4 : newId ∉ StoreSpec.ids usedStore).
  { intros H. apply list_elem_of_singleton in H. discriminate H. }
  assert (H5 : ls !! App.ACTIVE_ID_STORAGE_KEY = Some prev)
    by (by vm_compute).
  split; [exact (conj H1 (conj H2 (conj H3 (conj H4 H5))))|].
  destruct (new_chat_needs_two_clicks true prev 1734517900000 1734517960000
              usedStore ls H1 H2 H3 H4 H5)
    as ((Hr & _) & Hc1 & _ & Hrest).
  destruct (Hrest eq_refl) as (Hc2 & Hr' & _).
  split; [exact Hr|]. split; [exact Hc1|].
  split; [exact (f_equal fst Hc2) | exact Hr'].
Defined.
